(** * tyme: the timeline engine of [tyme/timeline.py]

    A shallow embedding of the [Timeline] class: the per-day log of
    activity entries ([self.timeline]), the activity hierarchy
    ([self.activities]) and the methods that read and mutate them.

    Python dictionaries that are only read through [sorted(keys)] or by key
    are finite maps ([gmap]); dictionaries whose iteration order is observable
    (the activity hierarchy, the result of [recent_activities]) are
    association lists kept in insertion order.  Methods run in a state and
    exception monad, so that the state left behind by a [raise] is visible. *)

From Stdlib Require Import ZArith Lia Ascii.
From stdpp Require Import gmap strings list fin_maps sorting.

#[local] Set Warnings "-clear-no-such-hyp".

(** ** The [tyme.utils] interface

    [tyme/utils.py] is imported by [timeline.py] but only its uses are
    visible: [utils.utc_now()], [utils.parse(s)], [utils.offset_day(ts,
    days_offset=n)] and the [Timestamp] attributes [date_str],
    [datetime_str] and [datetime.day].  They are taken as an interface. *)

Class Utils := {
  Timestamp : Type;
  date_str : Timestamp → string;
  datetime_str : Timestamp → string;
  day : Timestamp → Z;
  parse : string → option Timestamp;
  offset_day : Timestamp → Z → string;
}.

(** ** Python values and exceptions *)

Inductive exn :=
  | TimelineError (msg : string)
  | ValueError (msg : string)
  | IndexError
  | KeyError (key : string)
  | TypeError (msg : string)
  | AttributeError (msg : string).

(** [a > b] on Python strings. *)
Definition str_gt (a b : string) : bool := String.ltb b a.

(** An insertion-ordered dictionary with string keys. *)
Section odict.
Context {V : Type}.

Fixpoint dict_get (k : string) (d : list (string * V)) : option V :=
  match d with
  | [] => None
  | (k', v) :: r => if decide (k = k') then Some v else dict_get k r
  end.

(** [d[k] = v]: an existing key keeps its position. *)
Fixpoint dict_set (k : string) (v : V) (d : list (string * V))
  : list (string * V) :=
  match d with
  | [] => [(k, v)]
  | (k', v') :: r =>
      if decide (k = k') then (k, v) :: r else (k', v') :: dict_set k v r
  end.
End odict.

(** ** The data model *)

(** A timeline entry: the JSON object with some of the keys [id], [name],
    [start], [end] and [previous]. *)
Abbreviation Entry := (gmap string string).

(** [JSONTimeline = Dict[str, List[Dict[str, str]]]] *)
Abbreviation JSONTimeline := (gmap string (list (gmap string string))).

(** [JSONActivities = Dict[str, Tuple[str, JSONActivities]]] *)
#[warning="-register-all"]
Inductive JSONActivities :=
  | Cat (items : list (string * (string * JSONActivities))).

Definition items (c : JSONActivities) : list (string * (string * JSONActivities)) :=
  match c with Cat l => l end.

(** The state of a [Timeline] object, with the number of clock readings and
    of uuids drawn so far. *)
Record State := mkState {
  timeline : JSONTimeline;
  activities : JSONActivities;
  ticks : nat;
  uuids : nat;
}.

(** ** The state and exception monad *)

Definition M (A : Type) : Type := State → (exn + A) * State.

Definition ret {A} (a : A) : M A := λ σ, (inr a, σ).
Definition raise {A} (e : exn) : M A := λ σ, (inl e, σ).
Definition bind {A B} (c : M A) (k : A → M B) : M B :=
  λ σ, match c σ with
       | (inl e, σ') => (inl e, σ')
       | (inr a, σ') => k a σ'
       end.

Notation "x <- c ;; k" := (bind c (λ x, k))
  (at level 100, c at next level, right associativity).
Notation "c ;; k" := (bind c (λ _, k))
  (at level 100, right associativity).

Definition get_timeline : M JSONTimeline := λ σ, (inr (timeline σ), σ).
Definition set_timeline (tl : JSONTimeline) : M unit :=
  λ σ, (inr tt, mkState tl (activities σ) (ticks σ) (uuids σ)).
Definition get_activities : M JSONActivities := λ σ, (inr (activities σ), σ).

(** [l[-1]] *)
Definition index_last {A} (l : list A) : M A :=
  match last l with Some x => ret x | None => raise IndexError end.

(** [d[k]] on a dictionary *)
Definition getitem {V} (d : gmap string V) (k : string) : M V :=
  match d !! k with Some v => ret v | None => raise (KeyError k) end.

(** [for x in l: body(x)] *)
Fixpoint for_each {A} (l : list A) (body : A → M unit) : M unit :=
  match l with
  | [] => ret tt
  | x :: l' => body x ;; for_each l' body
  end.

(** [range(lo, hi)] *)
Definition range (lo hi : Z) : list Z :=
  (λ i : nat, lo + Z.of_nat i)%Z <$> seq 0 (Z.to_nat (hi - lo)).

(** [sorted(d.keys())] *)
Definition sorted_keys {V} (d : gmap string V) : list string :=
  merge_sort String.le (elements (dom d)).

Definition outcome {A} (r : (exn + A) * State) : exn + A := r.1.
Definition final {A} (r : (exn + A) * State) : State := r.2.

(** ** The methods of [Timeline] *)

Section timeline.
Context `{U : Utils}.
(** The system clock: [clock i] is what the [i]-th call of
    [utils.utc_now()] returns; [uuid4 i] is the [i]-th uuid drawn. *)
Variable clock : nat → Timestamp.
Variable uuid4 : nat → string.

(** [utils.utc_now()] *)
Definition utc_now : M Timestamp :=
  λ σ, (inr (clock (ticks σ)),
        mkState (timeline σ) (activities σ) (S (ticks σ)) (uuids σ)).

(** [utils.parse(s)]; what it raises on a string it cannot read is not
    visible from [timeline.py]. *)
Definition utils_parse (s : string) : M Timestamp :=
  match parse s with
  | Some t => ret t
  | None => raise (ValueError "unparsable timestamp")
  end.

(** [Timeline.current_activity] *)
Definition current_activity : M (option Entry) :=
  tl <- get_timeline ;;
  if decide (tl = ∅) then ret None
  else
    day_key <- index_last (sorted_keys tl) ;;
    bucket <- getitem tl day_key ;;
    last_activity <- index_last bucket ;;
    if decide ("end" ∈ dom last_activity) then ret None
    else ret (Some last_activity).

(** The entry written for each in-between day by [done]. *)
Definition fragment (id name start_ end_ : string) : Entry :=
  {[ "id" := id; "name" := name; "start" := start_; "end" := end_;
     "previous" := EmptyString ]}.

(** The body of the loop of [done] that fills the days between the start
    and today: [self.timeline[day] = [{...}]]. *)
Definition fill_day (last_activity : Entry)
    (start_timestamp end_timestamp : Timestamp) (offset : Z) : M unit :=
  let d := offset_day start_timestamp offset in
  id <- getitem last_activity "id" ;;
  name <- getitem last_activity "name" ;;
  start_ <- getitem last_activity "start" ;;
  tl <- get_timeline ;;
  set_timeline
    (<[d := [fragment id name start_ (datetime_str end_timestamp)]]> tl).

(** [Timeline.done] *)
Definition done : M (Timestamp * Timestamp * string) :=
  tl <- get_timeline ;;
  day_key <- index_last (sorted_keys tl) ;;
  bucket <- getitem tl day_key ;;
  last_activity <- index_last bucket ;;
  start_str <- getitem last_activity "start" ;;
  start_timestamp <- utils_parse start_str ;;
  end_timestamp <- utc_now ;;
  (* last_activity["end"] = ...: the entry is updated in place, in the
     bucket that holds it *)
  let last_activity := <["end" := datetime_str end_timestamp]> last_activity in
  set_timeline (<[day_key := <[pred (length bucket) := last_activity]> bucket]> tl) ;;
  (if str_gt (date_str start_timestamp) (date_str end_timestamp)
   then raise (TimelineError
     "Finishing activity before it was started. Maybe system clock is wrong?")
   else ret tt) ;;
  (if decide (date_str start_timestamp ≠ date_str end_timestamp) then
     let num_days := (day end_timestamp - day start_timestamp)%Z in
     for_each (range 1 (num_days + 1))
       (fill_day last_activity start_timestamp end_timestamp)
   else ret tt) ;;
  name <- getitem last_activity "name" ;;
  ret (start_timestamp, end_timestamp, name).

(** [Timeline.activity_id]: the inner [search] visits the hierarchy in
    pre-order, in the insertion order of each dictionary. *)
Fixpoint search_id (activity : string) (category : JSONActivities)
  : option string :=
  match category with
  | Cat l =>
      (fix go (l : list (string * (string * JSONActivities))) :=
         match l with
         | [] => None
         | (name, (activity_id, children)) :: rest =>
             if decide (name = activity) then Some activity_id
             else match search_id activity children with
                  | Some potential_id => Some potential_id
                  | None => go rest
                  end
         end) l
  end.

Definition activity_id (activity : string) : M (option string) :=
  acts <- get_activities ;; ret (search_id activity acts).

(** [Timeline.start] *)
Definition start (activity : string)
  : M (option (Timestamp * Timestamp * string)) :=
  found <- activity_id activity ;;
  match found with
  | None =>
      raise (TimelineError
               ("The activity '" +:+ activity +:+ "' does not exist."))
  | Some activity_id =>
      cur <- current_activity ;;
      activity_completed <-
        (if cur is Some _ then r <- done ;; ret (Some r) else ret None) ;;
      start_timestamp <- utc_now ;;
      tl <- get_timeline ;;
      (if decide (date_str start_timestamp ∈ dom tl) then ret tt
       else set_timeline (<[date_str start_timestamp := []]> tl)) ;;
      tl <- get_timeline ;;
      bucket <- getitem tl (date_str start_timestamp) ;;
      set_timeline
        (<[date_str start_timestamp :=
             bucket ++ [ {[ "id" := activity_id; "name" := activity;
                            "start" := datetime_str start_timestamp ]} ]]> tl) ;;
      ret activity_completed
  end.

(** [s.split(sep)] for a one-character separator. *)
Fixpoint split (sep : Ascii.ascii) (s : string) : list string :=
  match s with
  | EmptyString => [EmptyString]
  | String c s' =>
      if decide (c = sep) then EmptyString :: split sep s'
      else match split sep s' with
           | h :: t => String c h :: t
           | [] => [String c EmptyString]
           end
  end.

(** [*path, new_activity = activity_path] *)
Definition unpack_last {A} (l : list A) : M (list A * A) :=
  match last l with
  | Some x => ret (removelast l, x)
  | None => raise (ValueError "not enough values to unpack")
  end.

(** The loop of [Timeline.new_activity] and the final assignment, on the
    dictionary [current_category].  The nested dictionaries are mutated in
    place: what was written before a [raise] stays written, so the walk
    returns the dictionary as it stands together with its outcome. *)
Fixpoint walk (parents : bool) (activity : string) (path : list string)
    (new_activity : string)
    (current_category : list (string * (string * JSONActivities)))
    (n : nat)
  : option exn * list (string * (string * JSONActivities)) * nat :=
  match path with
  | [] =>
      (None, dict_set new_activity (uuid4 n, Cat []) current_category, S n)
  | category :: rest =>
      match dict_get category current_category with
      | None =>
          if parents then
            let created := dict_set category (uuid4 n, Cat []) current_category in
            let '(r, children', n') :=
              walk parents activity rest new_activity [] (S n) in
            (r, dict_set category (uuid4 n, Cat children') created, n')
          else
            (Some (ValueError ("the activity '" +:+ category +:+ "' within '"
                                 +:+ activity +:+ "' does not exist")),
             current_category, n)
      | Some (id, children) =>
          let '(r, children', n') :=
            walk parents activity rest new_activity (items children) n in
          (r, dict_set category (id, Cat children') current_category, n')
      end
  end.

(** [Timeline.new_activity] *)
Definition new_activity (activity : string) (parents : bool) : M unit :=
  let activity_path := tail (split "/"%char activity) in
  if decide (EmptyString ∈ activity_path)
  then raise (ValueError "malformed absolute activity path")
  else
    unpacked <- unpack_last activity_path ;;
    let '(path, leaf) := unpacked in
    (λ σ,
      let '(r, acts', n') :=
        walk parents activity path leaf (items (activities σ)) (uuids σ) in
      let σ' := mkState (timeline σ) (Cat acts') (ticks σ) n' in
      match r with
      | Some e => (inl e, σ')
      | None => (inr tt, σ')
      end).

(** [activities[day].append(activity)] on the [defaultdict(list)] of
    [recent_activities]. *)
Definition dict_append (day_key : string) (a : Entry)
    (acts : list (string * list Entry)) : list (string * list Entry) :=
  dict_set day_key (default [] (dict_get day_key acts) ++ [a]) acts.

(** The inner loop of [Timeline.recent_activities] over one day; [inr] is
    the early [return]. *)
Fixpoint recent_day (day_key : string) (bucket : list Entry) (num : Z)
    (acts : list (string * list Entry))
  : (list (string * list Entry) * Z) + list (string * list Entry) :=
  match bucket with
  | [] => inl (acts, num)
  | activity :: rest =>
      if decide ("previous" ∈ dom activity)
      then recent_day day_key rest num acts
      else
        let acts := dict_append day_key activity acts in
        let num := (num - 1)%Z in
        if decide (num = 0%Z) then inr acts
        else recent_day day_key rest num acts
  end.

Fixpoint recent_days (tl : JSONTimeline) (days : list string) (num : Z)
    (acts : list (string * list Entry)) : list (string * list Entry) :=
  match days with
  | [] => acts
  | d :: days' =>
      match recent_day d (default [] (tl !! d)) num acts with
      | inr result => result
      | inl (acts, num) => recent_days tl days' num acts
      end
  end.

(** [Timeline.recent_activities]: the days are the keys of the dictionary,
    hence distinct, and [sorted(..., reverse=True)] lists them in
    descending order. *)
Definition recent_activities (num : Z) : M (list (string * list Entry)) :=
  tl <- get_timeline ;;
  ret (recent_days tl (reverse (sorted_keys tl)) num []).
End timeline.

(** ** The command line ([tyme/cli.py])

    [main] builds the [Timeline] of the user, dispatches on the parsed
    arguments, saves, and prints a [TimelineError] instead of letting it
    escape.  It passes a [quiet] keyword to [start] and [done], which take
    no such parameter, and calls [print_status], which class [Timeline] does
    not define: the first is a [TypeError] raised when the call binds its
    arguments, before the body of the method runs, the second an
    [AttributeError].  Neither is caught by the handler. *)

Record Args := mkArgs {
  arg_start : option string;
  arg_done : bool;
  arg_new_activity : option string;
}.

(** Truth value of an optional string argument. *)
Definition truthy (o : option string) : bool :=
  match o with
  | Some s => negb (String.eqb s EmptyString)
  | None => false
  end.

(** [timeline.start(args.start, quiet=False)] and
    [timeline.done(quiet=False)]: [start(self, activity)] and [done(self)]
    have no parameter [quiet]. *)
Definition unexpected_keyword {A} (method : string) : M A :=
  raise (TypeError (method +:+ "() got an unexpected keyword argument 'quiet'")).

(** [timeline.print_status()]: class [Timeline] has no attribute
    [print_status]. *)
Definition print_status : M unit :=
  raise (AttributeError "'Timeline' object has no attribute 'print_status'").

(** [Timeline.save] writes the file of the user and leaves the object as
    it is. *)
Definition save : M unit := ret tt.

(** [try: ... except TimelineError as e: print(e)] *)
Definition except_TimelineError (c : M unit) : M unit :=
  λ σ, match c σ with
       | (inl (TimelineError _), σ') => (inr tt, σ')
       | r => r
       end.

(** [clock] and [uuid4] are the clock and the identifier supply of the
    process; as the calls are written, only [new_activity] is reached. *)
Definition main `{U : Utils} (clock : nat → Timestamp) (uuid4 : nat → string)
    (args : Args) : M unit :=
  let otherwise : M unit :=
    if truthy (arg_new_activity args) then
      new_activity uuid4 (default EmptyString (arg_new_activity args)) true
    else print_status in
  except_TimelineError (
    (if truthy (arg_start args) then unexpected_keyword "start"
     else if arg_done args then
       cur <- current_activity ;;
       if cur is Some _ then unexpected_keyword "done" else otherwise
     else otherwise) ;;
    save).

(** ** A calendar instance of the utilities *)

Module Calendar.

(** Modelled from the spec: [tyme/utils.py] is missing.  The spec writes
    timestamps as [2024-01-10T23:50], groups the log by calendar day and
    takes the day-of-month of a timestamp; this instance formats dates as
    [YYYY-MM-DD], timestamps as [YYYY-MM-DDTHH:MM], and moves day by day
    through the Gregorian calendar. *)
Record DateTime := mkDateTime {
  year : Z; month : Z; mday : Z; hour : Z; minute : Z;
}.

Definition digit (n : Z) : ascii := ascii_of_nat (48 + Z.to_nat (n mod 10)).
Definition pad2 (n : Z) : string :=
  String (digit (n / 10)) (String (digit n) EmptyString).
Definition pad4 (n : Z) : string :=
  String (digit (n / 1000)) (String (digit (n / 100)) (pad2 n)).

Definition fmt_date (t : DateTime) : string :=
  pad4 (year t) +:+ "-" +:+ pad2 (month t) +:+ "-" +:+ pad2 (mday t).
Definition fmt_datetime (t : DateTime) : string :=
  fmt_date t +:+ "T" +:+ pad2 (hour t) +:+ ":" +:+ pad2 (minute t).

Definition digit_val (c : ascii) : option Z :=
  let n := nat_of_ascii c in
  if decide (48 ≤ n ≤ 57)%nat then Some (Z.of_nat n - 48)%Z else None.

Fixpoint number_go (acc : Z) (s : string) : option Z :=
  match s with
  | EmptyString => Some acc
  | String c s' =>
      match digit_val c with
      | Some d => number_go (10 * acc + d) s'
      | None => None
      end
  end.
Definition number (s : string) : option Z :=
  if decide (s = EmptyString) then None else number_go 0 s.

Definition parse_datetime (s : string) : option DateTime :=
  if decide (String.length s = 16%nat
             ∧ String.get 4 s = Some "-"%char ∧ String.get 7 s = Some "-"%char
             ∧ String.get 10 s = Some "T"%char ∧ String.get 13 s = Some ":"%char)
  then
    y ← number (String.substring 0 4 s);
    m ← number (String.substring 5 2 s);
    d ← number (String.substring 8 2 s);
    h ← number (String.substring 11 2 s);
    mi ← number (String.substring 14 2 s);
    Some (mkDateTime y m d h mi)
  else None.

Definition is_leap (y : Z) : bool :=
  ((y mod 4 =? 0) && negb (y mod 100 =? 0) || (y mod 400 =? 0))%Z.

Definition days_in_month (y m : Z) : Z :=
  if (m =? 2)%Z then (if is_leap y then 29 else 28)
  else if ((m =? 4) || (m =? 6) || (m =? 9) || (m =? 11))%Z then 30
  else 31.

Definition next_day (t : DateTime) : DateTime :=
  if (mday t <? days_in_month (year t) (month t))%Z then
    mkDateTime (year t) (month t) (mday t + 1) (hour t) (minute t)
  else if (month t <? 12)%Z then
    mkDateTime (year t) (month t + 1) 1 (hour t) (minute t)
  else mkDateTime (year t + 1) 1 1 (hour t) (minute t).

Definition prev_day (t : DateTime) : DateTime :=
  if (1 <? mday t)%Z then
    mkDateTime (year t) (month t) (mday t - 1) (hour t) (minute t)
  else if (1 <? month t)%Z then
    mkDateTime (year t) (month t - 1)
      (days_in_month (year t) (month t - 1)) (hour t) (minute t)
  else mkDateTime (year t - 1) 12 31 (hour t) (minute t).

Definition add_days (t : DateTime) (n : Z) : DateTime :=
  if (0 <=? n)%Z then Nat.iter (Z.to_nat n) next_day t
  else Nat.iter (Z.to_nat (- n)) prev_day t.

#[export] Instance utils : Utils := {|
  Timestamp := DateTime;
  date_str := fmt_date;
  datetime_str := fmt_datetime;
  day := mday;
  parse := parse_datetime;
  offset_day t n := fmt_date (add_days t n);
|}.

(** A clock that returns the listed readings in turn and then stays at
    [rest]. *)
Definition clock_of (readings : list DateTime) (rest : DateTime)
  : nat → DateTime := λ i, default rest (readings !! i).

Definition uuid_of (prefix : string) (i : nat) : string :=
  prefix +:+ pad4 (Z.of_nat i).
End Calendar.

(** ** Descriptions of the log updates *)

Section log_updates.
Context `{U : Utils}.

(** An entry is open while it has no [end]; it is a continuation fragment
    when it carries [previous]. *)
Definition is_open (e : Entry) : Prop := e !! "end" = None.
Definition is_fragment (e : Entry) : Prop := "previous" ∈ dom e.

(** The last entry [e] of the bucket [es] of [day_key] gets its [end]. *)
Definition close_last (day_key : string) (es : list Entry) (e : Entry)
    (end_ : string) (tl : JSONTimeline) : JSONTimeline :=
  <[day_key := <[pred (length es) := <["end" := end_]> e]> es]> tl.

(** The buckets of the days [offs] after [st] are set to the fragment. *)
Definition fill_days (st : Timestamp) (frag : Entry) (offs : list Z)
    (tl : JSONTimeline) : JSONTimeline :=
  foldl (λ tl off, <[offset_day st off := [frag]]> tl) tl offs.

(** The days filled by [done] for an interval from [st] to [en]. *)
Definition filled_offsets (st en : Timestamp) : list Z :=
  if decide (date_str st ≠ date_str en)
  then range 1 (day en - day st + 1) else [].

(** The entry appended by [start]. *)
Definition new_entry (id name start_ : string) : Entry :=
  {[ "id" := id; "name" := name; "start" := start_ ]}.

Definition with_timeline (σ : State) (tl : JSONTimeline) (t : nat) : State :=
  mkState tl (activities σ) t (uuids σ).
End log_updates.

(** ** Sessions: sequences of operations on one [Timeline] object *)

Section sessions.
Context `{U : Utils}.
Variable clock : nat → Timestamp.

(** [self.timeline[d].append(x)], after creating the bucket when absent. *)
Definition append_entry (d : string) (x : Entry) (tl : JSONTimeline)
    : JSONTimeline :=
  <[d := default [] (tl !! d) ++ [x]]> tl.

(** The state after [start] has read the clock and appended the new entry. *)
Definition opened (id name : string) (σ : State) : State :=
  let now := clock (ticks σ) in
  with_timeline σ
    (append_entry (date_str now) (new_entry id name (datetime_str now))
       (timeline σ))
    (S (ticks σ)).

Definition nonempty_buckets (tl : JSONTimeline) : Prop :=
  map_Forall (λ _ es, es ≠ []) tl.

(** Entry [k] of the bucket of day [d] is open. *)
Definition open_at (tl : JSONTimeline) (d : string) (k : nat) : Prop :=
  ∃ es e, tl !! d = Some es ∧ es !! k = Some e ∧ is_open e.

Definition at_most_one_open (tl : JSONTimeline) : Prop :=
  ∀ d1 k1 d2 k2, open_at tl d1 k1 → open_at tl d2 k2 → d1 = d2 ∧ k1 = k2.

(** Every open entry is the last entry of the last day of the log. *)
Definition open_is_last (tl : JSONTimeline) : Prop :=
  ∀ d k, open_at tl d k →
    last (sorted_keys tl) = Some d ∧ ∃ es, tl !! d = Some es ∧ length es = S k.

Definition no_open (tl : JSONTimeline) : Prop := ∀ d k, ¬ open_at tl d k.

Inductive Op :=
  | OpStart (activity : string)
  | OpDone
  | OpRecent (num : Z)
  | OpCurrent.

(** One call on the object; an exception is reported to the caller and the
    object stays as the call left it. *)
Definition run_op (op : Op) (σ : State) : State :=
  match op with
  | OpStart activity => final (start clock activity σ)
  | OpDone => final (done clock σ)
  | OpRecent num => final (recent_activities num σ)
  | OpCurrent => final (current_activity σ)
  end.

Definition run_ops (ops : list Op) (σ : State) : State :=
  foldl (λ σ op, run_op op σ) σ ops.

(** What a session relies on: the start of every entry is a reading of the
    clock, no day of the log is after the next reading, and only the last
    entry of the last day may be open. *)
Record session_inv (σ : State) : Prop := {
  inv_nonempty : nonempty_buckets (timeline σ);
  inv_starts : ∀ d es e, timeline σ !! d = Some es → e ∈ es →
    ∃ i, (i < ticks σ)%nat ∧ e !! "start" = Some (datetime_str (clock i));
  inv_keys : ∀ d, d ∈ dom (timeline σ) →
    (d ≤ date_str (clock (ticks σ)))%string;
  inv_open : open_is_last (timeline σ);
}.

(** The clock never moves to an earlier day. *)
Definition clock_monotone : Prop :=
  ∀ i j, (i ≤ j)%nat → (date_str (clock i) ≤ date_str (clock j))%string.

(** What [utils.parse] returns for a formatted reading is that reading. *)
Definition clock_parses : Prop :=
  ∀ i, parse (datetime_str (clock i)) = Some (clock i).

(** The days filled between two readings are not after the later one. *)
Definition clock_fills : Prop :=
  ∀ i j off, (i ≤ j)%nat → date_str (clock i) ≠ date_str (clock j) →
    (1 ≤ off ≤ day (clock j) - day (clock i))%Z →
    (offset_day (clock i) off ≤ date_str (clock j))%string.
End sessions.

(** ** Concrete sessions on the calendar instance *)

Module Examples.
Import Calendar.

Definition uuid4 : nat → string := uuid_of "uuid-".

(** A hierarchy [/work/x], [/work/y]. *)
Definition catalog : JSONActivities :=
  Cat [("work", ("id-work", Cat [("x", ("id-x", Cat []));
                                 ("y", ("id-y", Cat []))]))].

Definition empty_session : State := mkState ∅ catalog 0 0.

(** A hierarchy where [/work/x] has a child [z]. *)
Definition deep_catalog : JSONActivities :=
  Cat [("work", ("id-work", Cat [("x", ("id-x", Cat [("z", ("id-z", Cat []))]));
                                 ("y", ("id-y", Cat []))]))].
Definition deep_session : State := mkState ∅ deep_catalog 0 0.

Definition jan10_2350 : DateTime := mkDateTime 2024 1 10 23 50.
Definition jan12_0010 : DateTime := mkDateTime 2024 1 12 0 10.
Definition jan12_0800 : DateTime := mkDateTime 2024 1 12 8 0.
Definition jan12_0801 : DateTime := mkDateTime 2024 1 12 8 1.
Definition jan10_0900 : DateTime := mkDateTime 2024 1 10 9 0.
Definition jan10_0930 : DateTime := mkDateTime 2024 1 10 9 30.

(** The log after [x] was started at 2024-01-10T23:50, which was the first
    reading of the clock. *)
Definition entry_x_open : Entry := new_entry "id-x" "x" "2024-01-10T23:50".
Definition active_session : State :=
  mkState {[ "2024-01-10" := [entry_x_open] ]} catalog 1 0.

(** A log whose only interval is closed. *)
Definition entry_x_closed : Entry :=
  <["end" := "2024-01-10T23:55"]> entry_x_open.
Definition idle_session : State :=
  mkState {[ "2024-01-10" := [entry_x_closed] ]} catalog 1 0.

(** The log after [y] was started at 2024-01-12T08:00, which was the second
    reading of the clock. *)
Definition entry_y_open : Entry := new_entry "id-y" "y" "2024-01-12T08:00".
Definition active_y_session : State :=
  mkState {[ "2024-01-12" := [entry_y_open] ]} catalog 2 0.

(** A log of two days with three intervals, the last one open. *)
Definition entry_work_closed : Entry :=
  <["end" := "2024-01-09T10:00"]>
    (new_entry "id-work" "work" "2024-01-09T09:00").
Definition entry_y_closed : Entry :=
  <["end" := "2024-01-11T10:00"]> (new_entry "id-y" "y" "2024-01-11T09:00").
Definition entry_x_1030 : Entry := new_entry "id-x" "x" "2024-01-11T10:30".
Definition history_session : State :=
  mkState {[ "2024-01-09" := [entry_work_closed];
             "2024-01-11" := [entry_y_closed; entry_x_1030] ]} catalog 3 0.



(** A clock that moves forward, across two midnights. *)
Definition forward_clock : nat → DateTime :=
  clock_of [jan10_2350; jan12_0010; jan12_0800] jan12_0801.

(** A clock that is set back by two days after its second reading. *)
Definition backward_clock : nat → DateTime :=
  clock_of [jan12_0010; jan12_0800; jan10_0900] jan10_0930.

(** A log whose last day has an empty list, as a hand-edited file may hold
    it. *)
Definition hollow_session : State :=
  mkState {[ "2024-01-09" := [entry_work_closed]; "2024-01-10" := [] ]}
    catalog 1 0.

(** [tyme --create-activity ACTIVITY] *)
Definition args_create (activity : string) : Args :=
  mkArgs None false (Some activity).

(** What [Timeline.make_empty] saves: no log and no activity. *)
Definition blank_session : State := mkState ∅ (Cat []) 0 0.

(** A clock that crosses the end of a month. *)
Definition jan31_2200 : DateTime := mkDateTime 2024 1 31 22 0.
Definition feb02_0900 : DateTime := mkDateTime 2024 2 2 9 0.
Definition month_end_clock : nat → DateTime :=
  clock_of [jan31_2200] feb02_0900.
Definition entry_x_jan31 : Entry := new_entry "id-x" "x" "2024-01-31T22:00".
Definition month_end_session : State :=
  mkState {[ "2024-01-31" := [entry_x_jan31] ]} catalog 1 0.
End Examples.

(** ** Paths in the activity hierarchy *)

(** The dictionary reached from [current_category] by following [path]. *)
Fixpoint resolve (path : list string)
    (current_category : list (string * (string * JSONActivities)))
  : option (list (string * (string * JSONActivities))) :=
  match path with
  | [] => Some current_category
  | category :: rest =>
      match dict_get category current_category with
      | Some (_, children) => resolve rest (items children)
      | None => None
      end
  end.

(** ** What [recent_activities] returns, as a function of the log *)

#[global] Instance is_fragment_dec (e : Entry) : Decision (is_fragment e).
Proof. unfold is_fragment. apply _. Defined.

(** The entries of a bucket that are not continuation fragments. *)
Definition real_entries (bucket : list Entry) : list Entry :=
  filter (λ a, ¬ is_fragment a) bucket.

(** The day [d] with its collected entries [l], behind the days collected
    before; a day with no collected entry does not appear. *)
Definition push (d : string) (l : list Entry)
    (acts : list (string * list Entry)) : list (string * list Entry) :=
  match l with
  | [] => acts
  | _ => acts ++ [(d, l)]
  end.

(** The days are visited in the given order; a day contributes its real
    entries, and the first [num] of them when that exhausts a positive
    [num]. *)
Fixpoint recent_spec (tl : JSONTimeline) (days : list string) (num : Z)
  : list (string * list Entry) :=
  match days with
  | [] => []
  | d :: days' =>
      let r := real_entries (default [] (tl !! d)) in
      if decide (1 ≤ num ≤ Z.of_nat (length r))%Z
      then push d (take (Z.to_nat num) r) []
      else push d r [] ++ recent_spec tl days' (num - Z.of_nat (length r))
  end.

(** The number of intervals in a result of [recent_activities]. *)
Definition interval_count (acts : list (string * list Entry)) : nat :=
  sum_list_with (λ p, length p.2) acts.

(** The number of real intervals in the buckets of [days]. *)
Definition total_real (tl : JSONTimeline) (days : list string) : nat :=
  sum_list_with (λ d, length (real_entries (default [] (tl !! d)))) days.

(** A day is later than the days listed after it. *)
Definition newest_first (days : list string) : Prop :=
  StronglySorted (λ a b, (b ≤ a)%string ∧ a ≠ b) days.

(** ** Looking activities up by name *)

(** [Timeline.activity_path]: the inner [search], with the path built so
    far. *)
Fixpoint search_path (activity : string) (path : string)
    (category : JSONActivities) : option string :=
  match category with
  | Cat l =>
      (fix go (l : list (string * (string * JSONActivities))) :=
         match l with
         | [] => None
         | (name, (_, children)) :: rest =>
             if decide (name = activity)
             then Some (path +:+ "/" +:+ activity)
             else match search_path activity (path +:+ "/" +:+ name) children with
                  | Some potential_path => Some potential_path
                  | None => go rest
                  end
         end) l
  end.

Definition activity_path (activity : string) : M (option string) :=
  acts <- get_activities ;; ret (search_path activity EmptyString acts).

(** The names and identifiers of a hierarchy, every node before its
    children and the children in the order of their dictionary. *)
Fixpoint preorder (category : JSONActivities) : list (string * string) :=
  match category with
  | Cat l =>
      (fix go (l : list (string * (string * JSONActivities))) :=
         match l with
         | [] => []
         | (name, (id, children)) :: rest =>
             (name, id) :: preorder children ++ go rest
         end) l
  end.

(** [/p1/p2/.../pn] *)
Definition path_str (segments : list string) : string :=
  foldr (λ s acc, "/" +:+ s +:+ acc) EmptyString segments.

(** The names [segments] lead from the top of the hierarchy down to a
    node. *)
Inductive has_path : JSONActivities → list string → Prop :=
  | has_path_here l name v :
      (name, v) ∈ l → has_path (Cat l) [name]
  | has_path_below l name id children segments :
      (name, (id, children)) ∈ l → has_path children segments →
      has_path (Cat l) (name :: segments).

(** A name without the path separator. *)
Definition no_slash (s : string) : Prop :=
  Forall (λ c, c ≠ "/"%char) (String.list_ascii_of_string s).

(** * Properties of the embedding *)

(** ** Sorted keys *)

Lemma str_gt_not_le a b : str_gt a b = true ↔ ¬ (a ≤ b)%string.
Proof.
  unfold str_gt, String.ltb, String.le, String.leb.
  rewrite (String.compare_antisym a b).
  destruct (b ?= a)%string; simpl; naive_solver.
Qed.

Lemma StronglySorted_last_le (l : list string) k :
  StronglySorted String.le l → last l = Some k → ∀ x, x ∈ l → (x ≤ k)%string.
Proof.
  induction 1 as [|y l Hl IH Hall]; intros Hlast x Hx; [done|].
  destruct l as [|z l'].
  - simpl in Hlast. simplify_eq. apply list_elem_of_singleton in Hx. by subst.
  - change (last (z :: l') = Some k) in Hlast.
    apply elem_of_cons in Hx as [->|Hx]; [|by apply IH].
    rewrite Forall_forall in Hall. etrans; [apply (Hall z); left|].
    apply IH; [done|left].
Qed.

Section keys.
Context {V : Type}.
Implicit Types d : gmap string V.

Lemma elem_of_sorted_keys d k : k ∈ sorted_keys d ↔ k ∈ dom d.
Proof. unfold sorted_keys. by rewrite merge_sort_Permutation, elem_of_elements. Qed.

Lemma sorted_keys_sorted d : StronglySorted String.le (sorted_keys d).
Proof. apply (StronglySorted_merge_sort _). Qed.

Lemma last_sorted_keys_None d : last (sorted_keys d) = None ↔ d = ∅.
Proof.
  rewrite last_None. split.
  - intros H. apply dom_empty_inv_L. apply set_eq. intros k.
    rewrite <- elem_of_sorted_keys, H. set_solver.
  - intros ->. unfold sorted_keys. by rewrite dom_empty_L, elements_empty.
Qed.

Lemma last_sorted_keys_Some d k :
  last (sorted_keys d) = Some k ↔ k ∈ dom d ∧ ∀ k', k' ∈ dom d → (k' ≤ k)%string.
Proof.
  split.
  - intros H. split.
    + apply elem_of_sorted_keys. apply last_Some in H as [l' ->]. set_solver.
    + intros k' Hk'. apply (StronglySorted_last_le (sorted_keys d)); auto using sorted_keys_sorted.
      by apply elem_of_sorted_keys.
  - intros [Hk Hmax]. destruct (last (sorted_keys d)) as [k0|] eqn:E.
    + f_equal. pose proof (StronglySorted_last_le _ _ (sorted_keys_sorted d) E) as Hle.
      apply (anti_symm String.le).
      * apply Hmax. apply elem_of_sorted_keys. apply last_Some in E as [l' ->]. set_solver.
      * apply Hle. by apply elem_of_sorted_keys.
    + apply last_sorted_keys_None in E. subst. set_solver.
Qed.
End keys.

(** ** What [done] does *)

(** Unfolds the primitive steps of the monad, not the methods. *)
Ltac unfold_monad :=
  unfold bind, ret, raise, get_timeline, set_timeline, get_activities,
    index_last, getitem, utils_parse, utc_now; simpl.

Section done_facts.
Context `{U : Utils}.
Variable clock : nat → Timestamp.

Lemma fill_day_ok (e : Entry) (st en : Timestamp) i n s off σ :
  e !! "id" = Some i → e !! "name" = Some n → e !! "start" = Some s →
  fill_day e st en off σ
  = (inr tt, with_timeline σ
       (<[offset_day st off := [fragment i n s (datetime_str en)]]> (timeline σ)) (ticks σ)).
Proof. intros Hi Hn Hs. unfold fill_day. unfold_monad. by rewrite Hi, Hn, Hs. Qed.

Lemma for_each_fill (e : Entry) (st en : Timestamp) i n s offs σ :
  e !! "id" = Some i → e !! "name" = Some n → e !! "start" = Some s →
  for_each offs (fill_day e st en) σ
  = (inr tt, with_timeline σ
       (fill_days st (fragment i n s (datetime_str en)) offs (timeline σ)) (ticks σ)).
Proof.
  intros Hi Hn Hs. revert σ. induction offs as [|off offs IH]; intros σ.
  - by destruct σ.
  - cbn [for_each]. unfold bind at 1. rewrite (fill_day_ok _ _ _ i n s) by done.
    rewrite IH. done.
Qed.

Lemma done_ok σ dlast es e s st i n :
  last (sorted_keys (timeline σ)) = Some dlast →
  timeline σ !! dlast = Some es → last es = Some e →
  e !! "start" = Some s → parse s = Some st →
  e !! "id" = Some i → e !! "name" = Some n →
  str_gt (date_str st) (date_str (clock (ticks σ))) = false →
  let en := clock (ticks σ) in
  done clock σ =
    (inr (st, en, n),
     with_timeline σ
       (fill_days st (fragment i n s (datetime_str en)) (filled_offsets st en)
          (close_last dlast es e (datetime_str en) (timeline σ)))
       (S (ticks σ))).
Proof.
  intros Hk Hb Hl Hs Hp Hi Hn Hgt en. unfold done.
  unfold_monad. rewrite Hk. simpl. rewrite Hb. simpl. rewrite Hl. simpl.
  rewrite Hs. simpl. rewrite Hp. simpl. rewrite Hgt. simpl.
  unfold filled_offsets. fold en. destruct (decide (date_str st ≠ date_str en)) as [Hne|Heq].
  - rewrite (for_each_fill _ st _ i n s); [|by rewrite lookup_insert_ne..].
    simpl. rewrite lookup_insert_ne by done. rewrite Hn. done.
  - simpl. rewrite lookup_insert_ne by done. rewrite Hn. done.
Qed.

Lemma done_skew σ dlast es e s st :
  last (sorted_keys (timeline σ)) = Some dlast →
  timeline σ !! dlast = Some es → last es = Some e →
  e !! "start" = Some s → parse s = Some st →
  str_gt (date_str st) (date_str (clock (ticks σ))) = true →
  done clock σ =
    (inl (TimelineError
       "Finishing activity before it was started. Maybe system clock is wrong?"),
     with_timeline σ (close_last dlast es e (datetime_str (clock (ticks σ))) (timeline σ))
       (S (ticks σ))).
Proof.
  intros Hk Hb Hl Hs Hp Hgt. unfold done.
  unfold_monad. rewrite Hk. simpl. rewrite Hb. simpl. rewrite Hl. simpl.
  rewrite Hs. simpl. rewrite Hp. simpl. rewrite Hgt. done.
Qed.

Lemma for_each_fill_raise (e : Entry) (st en : Timestamp) offs σ :
  e !! "id" = None ∨ e !! "name" = None ∨ e !! "start" = None →
  offs ≠ [] →
  ∃ k, for_each offs (fill_day e st en) σ = (inl (KeyError k), σ).
Proof.
  intros H Hoffs. destruct offs as [|off offs]; [done|].
  cbn [for_each]. unfold bind at 1. unfold fill_day. unfold_monad.
  destruct (e !! "id"); simpl; [|by eauto].
  destruct (e !! "name"); simpl; [|by eauto].
  destruct (e !! "start"); simpl; [|by eauto].
  by destruct H as [?|[?|?]].
Qed.

Lemma for_each_fill_outcome (e : Entry) (st en : Timestamp) offs σ :
  outcome (for_each offs (fill_day e st en) σ) = inr tt ∨
  ∃ k, outcome (for_each offs (fill_day e st en) σ) = inl (KeyError k).
Proof.
  destruct offs as [|o offs]; [by left|].
  destruct (e !! "id") as [i|] eqn:Hi;
    [destruct (e !! "name") as [n|] eqn:Hn;
     [destruct (e !! "start") as [s|] eqn:Hs|]|].
  - left. by rewrite (for_each_fill _ _ _ i n s).
  - right. edestruct (for_each_fill_raise e st en (o :: offs)) as [k ->]; eauto.
  - right. edestruct (for_each_fill_raise e st en (o :: offs)) as [k ->]; eauto.
  - right. edestruct (for_each_fill_raise e st en (o :: offs)) as [k ->]; eauto.
Qed.

Lemma done_cases σ :
  let en := clock (ticks σ) in
  final (done clock σ) = σ ∧
    ¬ (∃ dlast es e s st,
         last (sorted_keys (timeline σ)) = Some dlast ∧
         timeline σ !! dlast = Some es ∧ last es = Some e ∧
         e !! "start" = Some s ∧ parse s = Some st) ∨
  ∃ dlast es e s st frag offs,
    last (sorted_keys (timeline σ)) = Some dlast ∧
    timeline σ !! dlast = Some es ∧ last es = Some e ∧
    e !! "start" = Some s ∧ parse s = Some st ∧
    frag !! "start" = Some s ∧ frag !! "end" = Some (datetime_str en) ∧
    (offs = [] ∨
     offs = range 1 (day en - day st + 1) ∧
     str_gt (date_str st) (date_str en) = false ∧
     date_str st ≠ date_str en) ∧
    final (done clock σ) =
      with_timeline σ
        (fill_days st frag offs (close_last dlast es e (datetime_str en) (timeline σ)))
        (S (ticks σ)).
Proof.
  intros en. unfold done. unfold_monad.
  destruct (last (sorted_keys (timeline σ))) as [dlast|] eqn:Hk; simpl;
    [|left; naive_solver].
  destruct (timeline σ !! dlast) as [es|] eqn:Hb; simpl; [|left; naive_solver].
  destruct (last es) as [e|] eqn:Hl; simpl; [|left; naive_solver].
  destruct (e !! "start") as [s|] eqn:Hs; simpl; [|left; naive_solver].
  destruct (parse s) as [st|] eqn:Hp; simpl; [|left; naive_solver].
  right. fold en. exists dlast, es, e, s, st.
  set (e' := <["end" := datetime_str en]> e).
  set (frag0 := fragment EmptyString EmptyString s (datetime_str en)).
  destruct (str_gt (date_str st) (date_str en)) eqn:Hgt; simpl.
  { exists frag0, []. naive_solver. }
  destruct (decide (date_str st ≠ date_str en)) as [Hne|Heq]; simpl.
  - destruct (e !! "id") as [i|] eqn:Hi; [destruct (e !! "name") as [n|] eqn:Hn|].
    + rewrite (for_each_fill _ st _ i n s); [|by (unfold e'; rewrite lookup_insert_ne)..].
      simpl. unfold e'. rewrite lookup_insert_ne by done. rewrite Hn. simpl.
      exists (fragment i n s (datetime_str en)), (range 1 (day en - day st + 1)).
      naive_solver.
    + destruct (range 1 (day en - day st + 1)) as [|o os] eqn:Hr.
      * simpl. exists frag0, []. unfold e'. rewrite lookup_insert_ne by done. rewrite Hn. naive_solver.
      * edestruct (for_each_fill_raise e' st en (o :: os)) as [x ->]; [|done|].
        { right; left. unfold e'. by rewrite lookup_insert_ne. }
        exists frag0, []. naive_solver.
    + destruct (range 1 (day en - day st + 1)) as [|o os] eqn:Hr.
      * simpl. exists frag0, []. unfold e'. rewrite lookup_insert_ne by done.
        destruct (e !! "name"); naive_solver.
      * edestruct (for_each_fill_raise e' st en (o :: os)) as [x ->]; [|done|].
        { left. unfold e'. by rewrite lookup_insert_ne. }
        exists frag0, []. naive_solver.
  - exists frag0, []. unfold e'. rewrite lookup_insert_ne by done.
    destruct (e !! "name"); naive_solver.
Qed.
End done_facts.

(** ** What [current_activity] and [start] do *)

Section start_facts.
Context `{U : Utils}.
Variable clock : nat → Timestamp.

Lemma current_activity_final σ : final (current_activity σ) = σ.
Proof.
  unfold current_activity. unfold_monad.
  destruct (decide (timeline σ = ∅)); [done|].
  destruct (last (sorted_keys (timeline σ))) as [k|]; simpl; [|done].
  destruct (timeline σ !! k) as [es|]; simpl; [|done].
  destruct (last es) as [e|]; simpl; [|done].
  by destruct (decide ("end" ∈ dom e)).
Qed.

Lemma current_activity_Some σ e :
  outcome (current_activity σ) = inr (Some e) ↔
  ∃ d es, last (sorted_keys (timeline σ)) = Some d ∧
          timeline σ !! d = Some es ∧ last es = Some e ∧ is_open e.
Proof.
  unfold current_activity, is_open. unfold_monad.
  destruct (decide (timeline σ = ∅)) as [He|He].
  { simpl. split; [done|]. intros (d & es & Hd & _).
    apply last_sorted_keys_Some in Hd as [Hd _]. rewrite He in Hd. set_solver. }
  destruct (last (sorted_keys (timeline σ))) as [k|]; simpl; [|naive_solver].
  destruct (timeline σ !! k) as [es|] eqn:Hes; simpl; [|naive_solver].
  destruct (last es) as [e0|] eqn:Hl; simpl; [|naive_solver].
  destruct (decide ("end" ∈ dom e0)) as [Hin|Hin]; simpl.
  - apply elem_of_dom in Hin as [x Hx]. naive_solver.
  - apply not_elem_of_dom in Hin. naive_solver.
Qed.

Lemma current_activity_None σ :
  outcome (current_activity σ) = inr None ↔
  timeline σ = ∅ ∨
  ∃ d es e, last (sorted_keys (timeline σ)) = Some d ∧
          timeline σ !! d = Some es ∧ last es = Some e ∧ ¬ is_open e.
Proof.
  unfold current_activity, is_open. unfold_monad.
  destruct (decide (timeline σ = ∅)) as [He|He]; [naive_solver|].
  destruct (last (sorted_keys (timeline σ))) as [k|] eqn:Hk; simpl.
  2:{ apply last_sorted_keys_None in Hk. naive_solver. }
  destruct (timeline σ !! k) as [es|] eqn:Hes; simpl; [|naive_solver].
  destruct (last es) as [e0|] eqn:Hl; simpl; [|naive_solver].
  destruct (decide ("end" ∈ dom e0)) as [Hin|Hin]; simpl.
  - apply elem_of_dom in Hin as [x Hx]. split; [|done]. intros _. right.
    exists k, es, e0. naive_solver.
  - apply not_elem_of_dom in Hin. naive_solver.
Qed.

(** The second half of [start]: read the clock, create the bucket of the
    day when it is absent, append the entry. *)
Lemma start_spec activity σ :
  start clock activity σ =
  match search_id activity (activities σ) with
  | None =>
      (inl (TimelineError ("The activity '" +:+ activity +:+ "' does not exist.")), σ)
  | Some id =>
      match outcome (current_activity σ) with
      | inl x => (inl x, σ)
      | inr None => (inr None, opened clock id activity σ)
      | inr (Some _) =>
          match done clock σ with
          | (inl x, σ1) => (inl x, σ1)
          | (inr r, σ1) => (inr (Some r), opened clock id activity σ1)
          end
      end
  end.
Proof.
  unfold start, activity_id. unfold bind at 1. unfold bind at 1.
  unfold get_activities at 1. unfold ret at 1.
  destruct (search_id activity (activities σ)) as [id|]; [|done].
  unfold bind at 1. pose proof (current_activity_final σ) as Hf.
  unfold outcome. destruct (current_activity σ) as [[x|cur] σ']; simpl in *; subst σ'; [done|].
  assert (∀ (v : option (Timestamp * Timestamp * string)) σ1,
    (start_timestamp <- utc_now clock ;;
     tl <- get_timeline ;;
     (if decide (date_str start_timestamp ∈ dom tl) then ret tt
      else set_timeline (<[date_str start_timestamp := []]> tl)) ;;
     tl <- get_timeline ;;
     bucket <- getitem tl (date_str start_timestamp) ;;
     set_timeline
       (<[date_str start_timestamp :=
            bucket ++ [ {[ "id" := id; "name" := activity;
                           "start" := datetime_str start_timestamp ]} ]]> tl) ;;
     ret v) σ1 = (inr v, opened clock id activity σ1)) as Htail.
  { intros v σ1. unfold_monad. unfold opened, append_entry, with_timeline, new_entry.
    destruct (decide (date_str (clock (ticks σ1)) ∈ dom (timeline σ1))) as [Hin|Hin]; simpl.
    - apply elem_of_dom in Hin as [b Hb]. rewrite Hb. done.
    - apply not_elem_of_dom in Hin. rewrite lookup_insert_eq. simpl.
      rewrite insert_insert_eq, Hin. done. }
  destruct cur as [e|].
  - unfold bind at 1. unfold bind at 1. destruct (done clock σ) as [[x|r] σ1]; [done|].
    unfold ret at 1. exact (Htail (Some r) σ1).
  - unfold bind at 1. unfold ret at 1. exact (Htail None σ).
Qed.
End start_facts.

(** ** Lookups in an updated log *)

Lemma elem_of_range lo hi x : x ∈ range lo hi ↔ (lo ≤ x < hi)%Z.
Proof.
  unfold range. rewrite list_elem_of_fmap. split.
  - intros (i & -> & Hi). apply elem_of_seq in Hi. lia.
  - intros H. exists (Z.to_nat (x - lo)). split; [lia|]. apply elem_of_seq. lia.
Qed.

Section log_facts.
Context `{U : Utils}.
Implicit Types tl : JSONTimeline.

Lemma fill_days_lookup st frag offs tl d :
  fill_days st frag offs tl !! d =
    if decide (d ∈ offset_day st <$> offs) then Some [frag] else tl !! d.
Proof.
  revert tl. induction offs as [|o offs IH]; intros tl.
  - case_decide as H; [|done]. by apply elem_of_nil in H.
  - change (fill_days st frag (o :: offs) tl)
      with (fill_days st frag offs (<[offset_day st o := [frag]]> tl)).
    rewrite IH, fmap_cons. repeat case_decide; try done.
    + set_solver.
    + destruct (decide (d = offset_day st o)) as [->|Hne].
      * by rewrite lookup_insert_eq.
      * set_solver.
    + rewrite lookup_insert_ne; [done|]. set_solver.
Qed.

Lemma close_last_lookup dlast es e end_ tl d :
  close_last dlast es e end_ tl !! d =
    if decide (d = dlast) then Some (<[pred (length es) := <["end" := end_]> e]> es)
    else tl !! d.
Proof.
  unfold close_last. destruct (decide (d = dlast)) as [->|].
  - by rewrite lookup_insert_eq.
  - by rewrite lookup_insert_ne.
Qed.

Lemma append_entry_lookup d x tl d' :
  append_entry d x tl !! d' =
    if decide (d' = d) then Some (default [] (tl !! d) ++ [x]) else tl !! d'.
Proof.
  unfold append_entry. destruct (decide (d' = d)) as [->|].
  - by rewrite lookup_insert_eq.
  - by rewrite lookup_insert_ne.
Qed.

Lemma open_is_last_unique tl : open_is_last tl → at_most_one_open tl.
Proof.
  intros H d1 k1 d2 k2 H1 H2.
  destruct (H _ _ H1) as [Hd1 (es1 & He1 & Hl1)].
  destruct (H _ _ H2) as [Hd2 (es2 & He2 & Hl2)].
  assert (d1 = d2) as -> by congruence. split; [done|].
  assert (es1 = es2) by congruence. subst. lia.
Qed.

Lemma no_open_is_last tl : no_open tl → open_is_last tl.
Proof. intros H d k Ho. by destruct (H d k). Qed.
End log_facts.

(** ** The invariant of a session under a clock that does not go back *)

Section invariant.
Context `{U : Utils}.
Variable clock : nat → Timestamp.
Hypothesis Hmono : clock_monotone clock.
Hypothesis Hparse : clock_parses clock.
Hypothesis Hfill : clock_fills clock.

Lemma last_lookup_pred {A} (l : list A) x : last l = Some x → l !! pred (length l) = Some x.
Proof. by rewrite last_lookup. Qed.

Lemma done_inv σ :
  session_inv clock σ →
  session_inv clock (final (done clock σ)) ∧ no_open (timeline (final (done clock σ))).
Proof.
  intros [Hne Hst Hkeys Hopen].
  destruct (done_cases clock σ) as [[-> Hno]|(dlast & es & e & s & st & frag & offs & Hk & Hb & Hl & Hs & Hp & Hfs & Hfe & Hoffs & ->)].
  { split; [done|]. intros d k (es & e & Hd & Hek & Ho).
    destruct (Hopen d k) as [Hlast (es' & Hd' & Hlen)]; [by exists es, e|].
    apply Hno. assert (es' = es) as -> by congruence.
    assert (last es = Some e) as Hl by (rewrite last_lookup, Hlen; done).
    destruct (Hst d es e Hd) as (i & Hi & Hs); [by eapply list_elem_of_lookup_2|].
    exists d, es, e, (datetime_str (clock i)), (clock i). eauto. }
  set (en := clock (ticks σ)) in *.
  assert (e ∈ es) as Hin.
  { apply last_Some in Hl as [l' ->]. set_solver. }
  destruct (Hst _ _ _ Hb Hin) as (i & Hi & Hs').
  assert (s = datetime_str (clock i)) as -> by congruence.
  assert (st = clock i) as -> by (rewrite Hparse in Hp; congruence).
  set (tl' := fill_days (clock i) frag offs (close_last dlast es e (datetime_str en) (timeline σ))).
  assert (Hlook : ∀ d, tl' !! d =
     if decide (d ∈ offset_day (clock i) <$> offs) then Some [frag]
     else if decide (d = dlast) then Some (<[pred (length es) := <["end" := datetime_str en]> e]> es)
     else timeline σ !! d).
  { intros d. unfold tl'. by rewrite fill_days_lookup, close_last_lookup. }
  assert (Hclosed : no_open tl').
  { intros d k (es0 & e0 & Hd & Hek & Ho). rewrite Hlook in Hd.
    unfold is_open in Ho. repeat case_decide; simplify_eq.
    - destruct k; simplify_eq/=. 
    - destruct (decide (k = pred (length es))) as [->|Hk'].
      + rewrite list_lookup_insert_eq in Hek.
        * simplify_eq. by rewrite lookup_insert_eq in Ho.
        * apply lookup_lt_Some in Hek. by rewrite length_insert in Hek.
      + rewrite list_lookup_insert_ne in Hek by done.
        destruct (Hopen dlast k) as [_ (es' & Hd' & Hlen)]; [by exists es, e0|].
        simplify_eq. lia.
    - destruct (Hopen d k) as [Hd' _]; [by exists es0, e0|]. congruence. }
  split; [|done]. split; simpl.
  - intros d es0 Hd. fold tl' in Hd. rewrite Hlook in Hd.
    repeat case_decide; simplify_eq; [done| |by eapply Hne].
    intros Hnil. apply (f_equal length) in Hnil. rewrite length_insert in Hnil.
    destruct es; [done|]. done.
  - intros d es0 e0 Hd He0. fold tl' in Hd. rewrite Hlook in Hd.
    repeat case_decide; simplify_eq.
    + apply list_elem_of_singleton in He0 as ->. exists i. split; [lia|done].
    + apply list_elem_of_lookup in He0 as [k Hek].
      destruct (decide (k = pred (length es))) as [->|Hk'].
      * rewrite list_lookup_insert_eq in Hek.
        -- simplify_eq. exists i. split; [lia|]. by rewrite lookup_insert_ne.
        -- apply lookup_lt_Some in Hek. by rewrite length_insert in Hek.
      * rewrite list_lookup_insert_ne in Hek by done.
        destruct (Hst dlast es e0 Hb) as (j & Hj & Hsj); [by eapply list_elem_of_lookup_2|].
        exists j. split; [lia|done].
    + destruct (Hst d es0 e0 Hd He0) as (j & Hj & Hsj). exists j. split; [lia|done].
  - intros d Hd. fold tl' in Hd. apply elem_of_dom in Hd as [es0 Hd].
    rewrite Hlook in Hd. etrans; [|apply (Hmono (ticks σ) (S (ticks σ))); lia].
    fold en. repeat case_decide; simplify_eq.
    + destruct Hoffs as [->|(-> & Hgt & Hdne)]; [set_solver|].
      match goal with H : _ ∈ _ <$> _ |- _ => apply list_elem_of_fmap in H as (off & -> & Hoff) end.
      apply elem_of_range in Hoff. unfold en in *. apply Hfill; [lia|done|lia].
    + apply Hkeys. apply elem_of_dom. eauto.
    + apply Hkeys. apply elem_of_dom. eauto.
  - by apply no_open_is_last.
Qed.

Lemma opened_inv id name σ :
  session_inv clock σ → no_open (timeline σ) →
  session_inv clock (opened clock id name σ).
Proof.
  intros [Hne Hst Hkeys Hopen] Hno. unfold opened.
  set (now := clock (ticks σ)). set (x := new_entry id name (datetime_str now)).
  split; simpl.
  - intros d es Hd. rewrite append_entry_lookup in Hd.
    case_decide; simplify_eq; [|by eapply Hne].
    by destruct (default [] (timeline σ !! date_str now)).
  - intros d es e Hd He. rewrite append_entry_lookup in Hd. case_decide; simplify_eq.
    + apply elem_of_app in He as [He|He].
      * destruct (timeline σ !! date_str now) as [b|] eqn:Hb; simpl in He;
          [|by apply elem_of_nil in He].
        destruct (Hst _ _ _ Hb He) as (j & Hj & Hsj). exists j. split; [lia|done].
      * apply list_elem_of_singleton in He as ->. exists (ticks σ). split; [lia|done].
    + destruct (Hst _ _ _ Hd He) as (j & Hj & Hsj). exists j. split; [lia|done].
  - intros d Hd. etrans; [|apply (Hmono (ticks σ) (S (ticks σ))); lia].
    apply elem_of_dom in Hd as [es Hd]. rewrite append_entry_lookup in Hd.
    case_decide; simplify_eq; [done|]. apply Hkeys. apply elem_of_dom. eauto.
  - intros d k (es & e & Hd & Hek & Ho). rewrite append_entry_lookup in Hd.
    case_decide; simplify_eq.
    + split.
      * apply last_sorted_keys_Some. split.
        -- apply elem_of_dom. rewrite append_entry_lookup, decide_True by done. eauto.
        -- intros k' Hk'. apply elem_of_dom in Hk' as [es' Hk'].
           rewrite append_entry_lookup in Hk'. case_decide; simplify_eq; [done|].
           apply Hkeys. apply elem_of_dom. eauto.
      * eexists. split; [rewrite append_entry_lookup, decide_True by done; done|].
        rewrite length_app. simpl.
        destruct (decide (k < length (default [] (timeline σ !! date_str now)))%nat) as [Hlt|Hge].
        -- rewrite lookup_app_l in Hek by done.
           destruct (timeline σ !! date_str now) as [b|] eqn:Hb; simpl in *; [|lia].
           destruct (Hno (date_str now) k). by exists b, e.
        -- apply lookup_lt_Some in Hek. rewrite length_app in Hek. simpl in Hek. lia.
    + destruct (Hno d k). by exists es, e.
Qed.

Lemma idle_no_open σ :
  session_inv clock σ → outcome (current_activity σ) = inr None →
  no_open (timeline σ).
Proof.
  intros [Hne Hst Hkeys Hopen] Hcur d k (es & e & Hd & Hek & Ho).
  apply current_activity_None in Hcur as [He|(d' & es' & e' & Hk & Hd' & Hl & Hclosed)].
  - rewrite He in Hd. by rewrite lookup_empty in Hd.
  - destruct (Hopen d k) as [Hk' (es2 & Hd2 & Hlen)]; [by exists es, e|].
    simplify_eq. apply Hclosed. rewrite last_lookup, Hlen in Hl. simpl in Hl. congruence.
Qed.

Lemma start_inv activity σ :
  session_inv clock σ → session_inv clock (final (start clock activity σ)).
Proof.
  intros Hinv. rewrite start_spec.
  destruct (search_id activity (activities σ)) as [id|]; [|done].
  destruct (outcome (current_activity σ)) as [x|[e|]] eqn:Hcur; [done| |].
  - destruct (done_inv σ Hinv) as [Hinv1 Hno1].
    destruct (done clock σ) as [[x|r] σ1]; simpl in *; [done|].
    by apply opened_inv.
  - apply opened_inv; [done|]. by apply idle_no_open.
Qed.

Lemma run_op_inv op σ :
  session_inv clock σ → session_inv clock (run_op clock op σ).
Proof.
  intros Hinv. destruct op; simpl.
  - by apply start_inv.
  - by apply done_inv.
  - done.
  - by rewrite current_activity_final.
Qed.

Lemma run_ops_inv ops σ :
  session_inv clock σ → session_inv clock (run_ops clock ops σ).
Proof.
  revert σ. induction ops as [|op ops IH]; intros σ Hinv; [done|].
  apply IH. by apply run_op_inv.
Qed.

Lemma empty_log_inv acts n : session_inv clock (mkState ∅ acts 0 n).
Proof.
  split; simpl.
  - apply map_Forall_empty.
  - intros d es e Hd. by rewrite lookup_empty in Hd.
  - intros d Hd. set_solver.
  - intros d k (es & e & Hd & _). by rewrite lookup_empty in Hd.
Qed.
End invariant.

(** ** The example clocks *)

Section example_clocks.
Import Calendar Examples.

Lemma forward_clock_monotone : clock_monotone forward_clock.
Proof.
  intros i j Hij.
  destruct i as [|[|[|i]]], j as [|[|[|j]]]; try lia; compute_done.
Qed.

Lemma forward_clock_parses : clock_parses forward_clock.
Proof. intros i. destruct i as [|[|[|i]]]; compute_done. Qed.

Lemma forward_clock_fills : clock_fills forward_clock.
Proof.
  intros i j off Hij Hne Hoff.
  destruct i as [|[|[|i]]], j as [|[|[|j]]]; simpl in Hoff; try lia;
    try (by destruct Hne; compute_done);
    (assert (off = 1 ∨ off = 2)%Z as [-> | ->] by lia); compute_done.
Qed.
End example_clocks.

(** ** Day buckets are never left empty *)

Section nonempty.
Context `{U : Utils}.
Variable clock : nat → Timestamp.

Lemma done_nonempty σ :
  nonempty_buckets (timeline σ) →
  nonempty_buckets (timeline (final (done clock σ))).
Proof.
  intros Hne.
  destruct (done_cases clock σ) as [[-> _]|(dlast & es & e & s & st & frag & offs & Hk & Hb & Hl & _ & _ & _ & _ & _ & ->)];
    [done|].
  intros d es0 Hd. simpl in Hd. rewrite fill_days_lookup, close_last_lookup in Hd.
  repeat case_decide; simplify_eq; [done| |by eapply Hne].
  intros Hnil. apply (f_equal length) in Hnil. rewrite length_insert in Hnil.
  by destruct es.
Qed.

Lemma opened_nonempty id name σ :
  nonempty_buckets (timeline σ) →
  nonempty_buckets (timeline (opened clock id name σ)).
Proof.
  intros Hne d es Hd. simpl in Hd. rewrite append_entry_lookup in Hd.
  case_decide; simplify_eq; [|by eapply Hne].
  by destruct (default [] _).
Qed.

Lemma start_nonempty activity σ :
  nonempty_buckets (timeline σ) →
  nonempty_buckets (timeline (final (start clock activity σ))).
Proof.
  intros Hne. rewrite start_spec.
  destruct (search_id activity (activities σ)) as [id|]; [|done].
  destruct (outcome (current_activity σ)) as [x|[e|]]; [done| |].
  - pose proof (done_nonempty σ Hne) as H1.
    destruct (done clock σ) as [[x|r] σ1]; simpl in *; [done|].
    by apply opened_nonempty.
  - by apply opened_nonempty.
Qed.

Lemma run_op_nonempty op σ :
  nonempty_buckets (timeline σ) →
  nonempty_buckets (timeline (run_op clock op σ)).
Proof.
  intros Hne. destruct op; simpl.
  - by apply start_nonempty.
  - by apply done_nonempty.
  - done.
  - by rewrite current_activity_final.
Qed.

Lemma run_ops_nonempty ops σ :
  nonempty_buckets (timeline σ) →
  nonempty_buckets (timeline (run_ops clock ops σ)).
Proof.
  revert σ. induction ops as [|op ops IH]; intros σ Hne; [done|].
  apply IH. by apply run_op_nonempty.
Qed.

Lemma last_bucket_in_bounds (tl : JSONTimeline) d :
  nonempty_buckets tl → last (sorted_keys tl) = Some d →
  ∃ es e, tl !! d = Some es ∧ last es = Some e.
Proof.
  intros Hne Hd. apply last_sorted_keys_Some in Hd as [Hd _].
  apply elem_of_dom in Hd as [es Hes]. exists es.
  destruct (last es) as [e|] eqn:Hl; [by eauto|].
  apply last_None in Hl. by destruct (Hne d es Hes).
Qed.

Lemma current_activity_in_bounds σ :
  nonempty_buckets (timeline σ) → ∃ cur, outcome (current_activity σ) = inr cur.
Proof.
  intros Hne. unfold current_activity. unfold_monad.
  destruct (decide (timeline σ = ∅)) as [He|He]; [by eauto|].
  destruct (last (sorted_keys (timeline σ))) as [d|] eqn:Hd; simpl.
  2:{ by apply last_sorted_keys_None in Hd. }
  destruct (last_bucket_in_bounds _ _ Hne Hd) as (es & e & -> & Hl). simpl.
  rewrite Hl. simpl. destruct (decide ("end" ∈ dom e)); by eauto.
Qed.

Lemma done_in_bounds σ :
  nonempty_buckets (timeline σ) → timeline σ ≠ ∅ →
  outcome (done clock σ) ≠ inl IndexError.
Proof.
  intros Hne He. unfold done. unfold_monad.
  destruct (last (sorted_keys (timeline σ))) as [d|] eqn:Hd; simpl.
  2:{ by apply last_sorted_keys_None in Hd. }
  destruct (last_bucket_in_bounds _ _ Hne Hd) as (es & e & -> & Hl). simpl.
  rewrite Hl. simpl.
  destruct (e !! "start") as [s|]; simpl; [|done].
  destruct (parse s) as [st|]; simpl; [|done].
  destruct (str_gt _ _); simpl; [done|].
  set (e' := <["end" := _]> e).
  case_decide; simpl.
  - match goal with |- context [for_each ?l ?b ?σ0] =>
      destruct (for_each_fill_outcome e' st (clock (ticks σ)) l σ0) as [Hf|[k Hf]];
      destruct (for_each l b σ0) as [[x|[]] σ1] end; simpl in *; simplify_eq; try done.
    destruct (e' !! "name"); done.
  - destruct (e' !! "name"); done.
Qed.
End nonempty.

(** ** The activity hierarchy *)

Section odict_facts.
Context {V : Type}.
Implicit Types d : list (string * V).

Lemma dict_get_set_eq k v d : dict_get k (dict_set k v d) = Some v.
Proof.
  induction d as [|[k' v'] d IH]; simpl.
  - by rewrite decide_True.
  - destruct (decide (k = k')) as [->|Hne]; simpl.
    + by rewrite decide_True.
    + by rewrite decide_False.
Qed.

Lemma dict_get_set_ne k k' v d : k ≠ k' → dict_get k' (dict_set k v d) = dict_get k' d.
Proof.
  intros Hne. induction d as [|[k0 v0] d IH]; simpl.
  - by rewrite decide_False.
  - destruct (decide (k = k0)) as [->|Hne0]; simpl.
    + by rewrite !decide_False.
    + destruct (decide (k' = k0)); done.
Qed.

Lemma dict_set_same k v d : dict_get k d = Some v → dict_set k v d = d.
Proof.
  induction d as [|[k' v'] d IH]; simpl; [done|].
  destruct (decide (k = k')) as [->|Hne]; intros H; [congruence|].
  by rewrite IH.
Qed.

Lemma dict_set_length k v d :
  is_Some (dict_get k d) → length (dict_set k v d) = length d.
Proof.
  induction d as [|[k' v'] d IH]; simpl; [by intros [? ?]|].
  destruct (decide (k = k')) as [->|Hne]; simpl; [done|].
  intros H. by rewrite IH.
Qed.

Lemma dict_set_keys k v d :
  is_Some (dict_get k d) → (dict_set k v d).*1 = d.*1.
Proof.
  induction d as [|[k' v'] d IH]; simpl; [by intros [? ?]|].
  destruct (decide (k = k')) as [->|Hne]; simpl; [done|].
  intros H. f_equal. by apply IH.
Qed.
End odict_facts.

Section catalog_facts.
Variable uuid4 : nat → string.

Lemma Cat_items c : Cat (items c) = c.
Proof. by destruct c. Qed.

Lemma walk_parents_succeeds activity path leaf cur n :
  (walk uuid4 true activity path leaf cur n).1.1 = None.
Proof.
  revert cur n. induction path as [|c rest IH]; intros cur n; simpl; [done|].
  destruct (dict_get c cur) as [[id children]|].
  - specialize (IH (items children) n).
    destruct (walk uuid4 true activity rest leaf (items children) n) as [[r ch] n'].
    done.
  - specialize (IH [] (S n)).
    destruct (walk uuid4 true activity rest leaf [] (S n)) as [[r ch] n'].
    done.
Qed.

Lemma walk_fail_unchanged parents activity path leaf cur n e cur' n' :
  walk uuid4 parents activity path leaf cur n = (Some e, cur', n') →
  cur' = cur ∧ n' = n.
Proof.
  destruct parents.
  { intros H. pose proof (walk_parents_succeeds activity path leaf cur n) as H'.
    rewrite H in H'. done. }
  revert cur n cur' n'. induction path as [|c rest IH]; intros cur n cur' n'; simpl; [done|].
  destruct (dict_get c cur) as [[id children]|] eqn:Hc; [|by intros [= <- <- <-]].
  destruct (walk uuid4 false activity rest leaf (items children) n) as [[r ch] m] eqn:Hw.
  intros [= -> <- <-]. destruct (IH _ _ _ _ Hw) as [-> ->].
  split; [|done]. rewrite Cat_items. by apply dict_set_same.
Qed.

Lemma new_activity_fail_unchanged activity parents σ x :
  outcome (new_activity uuid4 activity parents σ) = inl x →
  final (new_activity uuid4 activity parents σ) = σ.
Proof.
  unfold new_activity. case_decide; [done|].
  unfold bind, unpack_last.
  destruct (last (tail (split "/" activity))) as [leaf|]; [|done].
  unfold ret.
  destruct (walk uuid4 parents activity (removelast (tail (split "/" activity))) leaf
              (items (activities σ)) (uuids σ)) as [[r acts'] n'] eqn:Hw.
  destruct r as [e|]; [|done]. intros _.
  destruct (walk_fail_unchanged _ _ _ _ _ _ _ _ _ Hw) as [-> ->].
  simpl. rewrite Cat_items. by destruct σ.
Qed.

Lemma walk_existing parents activity path leaf cur n dest :
  resolve path cur = Some dest →
  ∃ cur', walk uuid4 parents activity path leaf cur n = (None, cur', S n) ∧
          resolve path cur' = Some (dict_set leaf (uuid4 n, Cat []) dest).
Proof.
  revert cur. induction path as [|c rest IH]; intros cur; simpl.
  - intros [= ->]. eauto.
  - destruct (dict_get c cur) as [[id children]|] eqn:Hc; [|done].
    intros Hres. destruct (IH _ Hres) as (ch' & -> & Hres').
    eexists. split; [done|]. by rewrite dict_get_set_eq.
Qed.
End catalog_facts.

(** ** [recent_activities] computes [recent_spec] *)

Section recent_facts.
Implicit Types acts : list (string * list Entry).
Implicit Types tl : JSONTimeline.

Lemma dict_get_app_fresh {V} d (acts0 rest : list (string * V)) :
  d ∉ acts0.*1 → dict_get d (acts0 ++ rest) = dict_get d rest.
Proof.
  induction acts0 as [|[k v] acts0 IH]; simpl; [done|].
  intros Hd. rewrite decide_False by set_solver. apply IH. set_solver.
Qed.

Lemma dict_set_app_fresh {V} d (v : V) (acts0 rest : list (string * V)) :
  d ∉ acts0.*1 → dict_set d v (acts0 ++ rest) = acts0 ++ dict_set d v rest.
Proof.
  induction acts0 as [|[k v'] acts0 IH]; simpl; [done|].
  intros Hd. rewrite decide_False by set_solver. f_equal. apply IH. set_solver.
Qed.

Lemma push_app d l acts : push d l acts = acts ++ push d l [].
Proof. destruct l; simpl; [by rewrite app_nil_r|done]. Qed.

Lemma dict_append_push d a l acts :
  d ∉ acts.*1 → dict_append d a (push d l acts) = push d (l ++ [a]) acts.
Proof.
  intros Hd. unfold dict_append. destruct l as [|x l]; simpl.
  - rewrite <- (app_nil_r acts) at 1 2.
    rewrite dict_get_app_fresh, dict_set_app_fresh by done. done.
  - rewrite dict_get_app_fresh, dict_set_app_fresh by done. simpl.
    by rewrite !decide_True.
Qed.

Lemma real_entries_cons a bucket :
  real_entries (a :: bucket) =
    if decide ("previous" ∈ dom a) then real_entries bucket
    else a :: real_entries bucket.
Proof.
  unfold real_entries. rewrite filter_cons.
  destruct (decide ("previous" ∈ dom a)) as [Hf|Hf];
    destruct (decide (¬ is_fragment a)) as [Hnf|Hnf]; done.
Qed.

Lemma recent_day_spec d bucket num acts l :
  d ∉ acts.*1 →
  recent_day d bucket num (push d l acts) =
    let r := real_entries bucket in
    if decide (1 ≤ num ≤ Z.of_nat (length r))%Z
    then inr (push d (l ++ take (Z.to_nat num) r) acts)
    else inl (push d (l ++ r) acts, (num - Z.of_nat (length r))%Z).
Proof.
  intros Hd. cbv zeta. revert num l.
  induction bucket as [|a bucket IH]; intros num l.
  - cbn [recent_day]. unfold real_entries. rewrite filter_nil.
    cbn [length]. case_decide; [lia|]. by rewrite app_nil_r, Z.sub_0_r.
  - cbn [recent_day]. rewrite real_entries_cons.
    destruct (decide ("previous" ∈ dom a)) as [Hf|Hf]; [apply IH|].
    rewrite dict_append_push by done.
    cbn [length]. destruct (decide (num - 1 = 0)%Z) as [H1|H1].
    + rewrite decide_True by lia. replace (Z.to_nat num) with 1%nat by lia.
      simpl. by rewrite take_0.
    + rewrite IH.
      destruct (decide (1 ≤ num - 1 ≤ Z.of_nat (length (real_entries bucket)))%Z).
      * rewrite decide_True by lia.
        replace (Z.to_nat num) with (S (Z.to_nat (num - 1))) by lia.
        simpl. by rewrite <- app_assoc.
      * rewrite decide_False by lia. rewrite <- app_assoc. simpl.
        do 2 f_equal. lia.
Qed.

Lemma push_keys d l acts : (push d l acts).*1 = acts.*1 ++ (push d l []).*1.
Proof. rewrite push_app. by rewrite fmap_app. Qed.

Lemma push_nil_keys d l x : x ∈ (push d l []).*1 → x = d.
Proof. destruct l; simpl; set_solver. Qed.

Lemma recent_days_spec tl days num acts :
  NoDup days → (∀ d, d ∈ days → d ∉ acts.*1) →
  recent_days tl days num acts = acts ++ recent_spec tl days num.
Proof.
  revert num acts. induction days as [|d days IH]; intros num acts Hnd Hfresh.
  - simpl. by rewrite app_nil_r.
  - apply NoDup_cons in Hnd as [Hd Hnd]. cbn [recent_days recent_spec].
    change acts with (push d [] acts) at 1.
    rewrite recent_day_spec by (apply Hfresh; left). cbv zeta. simpl app.
    case_decide.
    + apply push_app.
    + rewrite IH; [|done|].
      * by rewrite (push_app d _ acts), <- app_assoc.
      * intros d' Hd'. rewrite push_keys. intros Hin.
        apply elem_of_app in Hin as [Hin|Hin].
        -- apply (Hfresh d'); [by right|done].
        -- apply push_nil_keys in Hin. by subst.
Qed.

Lemma sorted_keys_NoDup {V} (m : gmap string V) : NoDup (sorted_keys m).
Proof.
  unfold sorted_keys. rewrite merge_sort_Permutation. apply NoDup_elements.
Qed.

Lemma recent_activities_spec num σ :
  recent_activities num σ =
    (inr (recent_spec (timeline σ) (reverse (sorted_keys (timeline σ))) num), σ).
Proof.
  unfold recent_activities, bind, get_timeline, ret.
  rewrite recent_days_spec; [done| |].
  - rewrite reverse_Permutation. apply sorted_keys_NoDup.
  - intros d _. set_solver.
Qed.
End recent_facts.

(** ** What [recent_activities] returns *)

Section recent_properties.
Implicit Types acts : list (string * list Entry).
Implicit Types tl : JSONTimeline.

Lemma push_nil_cases d l :
  (l = [] ∧ push d l [] = []) ∨ (l ≠ [] ∧ push d l [] = [(d, l)]).
Proof. destruct l; [by left|by right]. Qed.

Lemma recent_spec_keys tl days num :
  (recent_spec tl days num).*1 `sublist_of` days.
Proof.
  revert num. induction days as [|d days IH]; intros num; simpl; [done|].
  set (r := real_entries _). case_decide.
  - destruct (push_nil_cases d (take (Z.to_nat num) r)) as [[_ ->]|[_ ->]]; simpl.
    + apply sublist_nil_l.
    + apply sublist_skip, sublist_nil_l.
  - rewrite fmap_app.
    destruct (push_nil_cases d r) as [[_ ->]|[_ ->]]; simpl.
    + by apply sublist_cons.
    + by apply sublist_skip.
Qed.

Lemma recent_spec_entries tl days num d l :
  (d, l) ∈ recent_spec tl days num →
  l ≠ [] ∧ l `prefix_of` real_entries (default [] (tl !! d)).
Proof.
  revert num. induction days as [|d' days IH]; intros num; simpl.
  { intros Hin. by apply elem_of_nil in Hin. }
  set (r := real_entries _). case_decide as Hnum.
  - destruct (push_nil_cases d' (take (Z.to_nat num) r)) as [[_ ->]|[Hne ->]].
    + intros Hin. by apply elem_of_nil in Hin.
    + intros Hin. apply list_elem_of_singleton in Hin. simplify_eq.
      split; [done|apply prefix_take].
  - intros Hin. apply elem_of_app in Hin as [Hin|Hin]; [|by eapply IH].
    destruct (push_nil_cases d' r) as [[_ Hp]|[Hne Hp]]; rewrite Hp in Hin.
    + by apply elem_of_nil in Hin.
    + apply list_elem_of_singleton in Hin. simplify_eq. done.
Qed.

Lemma interval_count_app acts1 acts2 :
  interval_count (acts1 ++ acts2) = (interval_count acts1 + interval_count acts2)%nat.
Proof. unfold interval_count. by rewrite sum_list_with_app. Qed.

Lemma interval_count_push d l : interval_count (push d l []) = length l.
Proof. destruct l; [done|]. unfold interval_count. simpl. lia. Qed.

Lemma recent_spec_count_pos tl days num :
  (1 ≤ num)%Z →
  Z.of_nat (interval_count (recent_spec tl days num))
    = Z.min num (Z.of_nat (total_real tl days)).
Proof.
  revert num. induction days as [|d days IH]; intros num Hnum.
  - unfold total_real, interval_count. simpl. lia.
  - cbn [recent_spec]. unfold total_real. cbn [sum_list_with].
    fold (total_real tl days).
    set (r := real_entries _). cbv zeta. case_decide.
    + rewrite interval_count_push, length_take. lia.
    + rewrite interval_count_app, interval_count_push.
      rewrite Nat2Z.inj_add, IH by lia. lia.
Qed.

Lemma recent_spec_count_nonpos tl days num :
  (num ≤ 0)%Z →
  interval_count (recent_spec tl days num) = total_real tl days.
Proof.
  revert num. induction days as [|d days IH]; intros num Hnum; [done|].
  cbn [recent_spec]. unfold total_real. cbn [sum_list_with].
  fold (total_real tl days). set (r := real_entries _). cbv zeta.
  case_decide; [lia|].
  rewrite interval_count_app, interval_count_push, IH by lia. done.
Qed.

Lemma newest_first_sublist (l k : list string) :
  l `sublist_of` k → newest_first k → newest_first l.
Proof.
  unfold newest_first. induction 1 as [|x l k Hs IH|x l k Hs IH]; intros Hk.
  - constructor.
  - apply StronglySorted_cons in Hk as [Hall Hk].
    apply StronglySorted_cons. split; [|by apply IH].
    rewrite Forall_forall in *. intros y Hy. apply Hall.
    by eapply elem_of_sublist.
  - apply StronglySorted_cons in Hk as [_ Hk]. by apply IH.
Qed.

Lemma newest_first_reverse_sorted (l : list string) :
  StronglySorted String.le l → NoDup l → newest_first (reverse l).
Proof.
  unfold newest_first. induction 1 as [|x l Hl IH Hall]; intros Hnd.
  - constructor.
  - apply NoDup_cons in Hnd as [Hx Hnd]. rewrite reverse_cons.
    apply StronglySorted_app. split; [|split].
    + intros y z Hy Hz. rewrite elem_of_reverse in Hy.
      apply list_elem_of_singleton in Hz as ->.
      rewrite Forall_forall in Hall. cbv beta. split; [by apply Hall|].
      intros ->. done.
    + by apply IH.
    + repeat constructor.
Qed.

Lemma newest_first_sorted_keys {V} (m : gmap string V) :
  newest_first (reverse (sorted_keys m)).
Proof.
  apply newest_first_reverse_sorted;
    [apply sorted_keys_sorted|apply sorted_keys_NoDup].
Qed.

(** For a positive [num] the result holds [num] intervals, or every real
    interval of the log when there are fewer, and no fragment. *)
Lemma recent_activities_positive num σ :
  (1 ≤ num)%Z →
  ∃ result, recent_activities num σ = (inr result, σ) ∧
    Z.of_nat (interval_count result)
      = Z.min num (Z.of_nat (total_real (timeline σ)
                               (reverse (sorted_keys (timeline σ))))) ∧
    ∀ d l e, (d, l) ∈ result → e ∈ l → ¬ is_fragment e.
Proof.
  intros Hnum. eexists. split; [apply recent_activities_spec|]. split.
  - by apply recent_spec_count_pos.
  - intros d l e Hdl He. apply recent_spec_entries in Hdl as [_ [k Hk]].
    assert (e ∈ real_entries (default [] (timeline σ !! d))) as Hin.
    { rewrite Hk. set_solver. }
    unfold real_entries in Hin. by apply list_elem_of_filter in Hin as [? _].
Qed.

(** For [num ≤ 0] the countdown never reaches zero: every real interval of
    the log is returned. *)
Lemma recent_activities_nonpositive num σ :
  (num ≤ 0)%Z →
  ∃ result, recent_activities num σ = (inr result, σ) ∧
    interval_count result
      = total_real (timeline σ) (reverse (sorted_keys (timeline σ))).
Proof.
  intros Hnum. eexists. split; [apply recent_activities_spec|].
  by apply recent_spec_count_nonpos.
Qed.
End recent_properties.

(** * The claims *)

Section claims.
Import Calendar Examples.




(** C2 (amended): when the clock never moves to an earlier day (and the
    utilities parse what they format and fill no day after the end), after
    every sequence of [start], [done], [recent_activities] and
    [current_activity] calls on an empty log, at most one entry of the whole
    log is open, and an open entry is the last entry of the last day. *)
Theorem C2_at_most_one_open_interval `{U : Utils} (clock : nat → Timestamp)
    (acts : JSONActivities) (ops : list Op) :
  clock_monotone clock → clock_parses clock → clock_fills clock →
  let tl := timeline (run_ops clock ops (mkState ∅ acts 0 0)) in
  at_most_one_open tl ∧ open_is_last tl.
Proof.
  intros Hmono Hparse Hfill tl.
  assert (open_is_last tl) as H.
  { apply (inv_open clock). apply run_ops_inv; auto using empty_log_inv. }
  split; [by apply open_is_last_unique|done].
Qed.

Lemma C2_witness :
  clock_monotone forward_clock ∧ clock_parses forward_clock ∧
  clock_fills forward_clock ∧
  let tl := timeline (run_ops forward_clock
                        [OpStart "x"; OpDone; OpStart "y"; OpStart "x"]
                        empty_session) in
  open_at tl "2024-01-12" 2 ∧ at_most_one_open tl ∧ open_is_last tl.
Proof.
  split; [exact forward_clock_monotone|].
  split; [exact forward_clock_parses|].
  split; [exact forward_clock_fills|].
  split.
  - exists [fragment "id-x" "x" "2024-01-10T23:50" "2024-01-12T00:10";
            <["end" := "2024-01-12T08:01"]> entry_y_open;
            new_entry "id-x" "x" "2024-01-12T08:01"],
           (new_entry "id-x" "x" "2024-01-12T08:01").
    repeat split; compute_done.
  - apply (C2_at_most_one_open_interval (U:=utils) forward_clock catalog).
    + exact forward_clock_monotone.
    + exact forward_clock_parses.
    + exact forward_clock_fills.
Defined.

(** With a clock that is set back by two days, the third [start] opens an
    interval in an earlier day than the last one, [current_activity] does not
    see it, and the fourth [start] opens a second interval beside it. *)
Lemma C2_counterexample :
  let tl := timeline (run_ops backward_clock
                        [OpStart "x"; OpDone; OpStart "x"; OpStart "y"]
                        empty_session) in
  tl !! "2024-01-10" = Some [new_entry "id-x" "x" "2024-01-10T09:00";
                             new_entry "id-y" "y" "2024-01-10T09:30"] ∧
  last (sorted_keys tl) = Some "2024-01-12" ∧
  ¬ at_most_one_open tl ∧ ¬ open_is_last tl.
Proof.
  intros tl.
  assert (tl !! "2024-01-10" = Some [new_entry "id-x" "x" "2024-01-10T09:00";
                             new_entry "id-y" "y" "2024-01-10T09:30"]) as Hb
    by compute_done.
  assert (open_at tl "2024-01-10" 0) as H0.
  { eexists _, _. split; [exact Hb|]. split; [reflexivity|]. compute_done. }
  assert (open_at tl "2024-01-10" 1) as H1.
  { eexists _, _. split; [exact Hb|]. split; [reflexivity|]. compute_done. }
  assert (last (sorted_keys tl) = Some "2024-01-12") as Hl by compute_done.
  split; [done|]. split; [done|]. split.
  - intros H. by destruct (H _ _ _ _ H0 H1).
  - intros H. destruct (H _ _ H0) as [Hl' _]. rewrite Hl in Hl'. done.
Qed.

(** C3: [done] writes [last_activity["end"]] before it compares the dates.
    When the start date of the open interval is after the date of the clock,
    [done] raises its [TimelineError] and the interval already carries the
    end: the log after the failed call is not the log before it. *)
Theorem C3_failed_done_leaves_the_end_written `{U : Utils}
    (clock : nat → Timestamp) (σ : State) (dlast : string) (es : list Entry)
    (e : Entry) (s : string) (st : Timestamp) :
  last (sorted_keys (timeline σ)) = Some dlast →
  timeline σ !! dlast = Some es → last es = Some e → is_open e →
  e !! "start" = Some s → parse s = Some st →
  let now := clock (ticks σ) in
  str_gt (date_str st) (date_str now) = true →
  let σ' := final (done clock σ) in
  (∃ msg, outcome (done clock σ) = inl (TimelineError msg)) ∧
  timeline σ' !! dlast
    = Some (<[pred (length es) := <["end" := datetime_str now]> e]> es) ∧
  timeline σ' ≠ timeline σ.
Proof.
  intros Hk Hb Hl Ho Hs Hp now Hgt σ'. unfold σ'.
  rewrite (done_skew clock σ dlast es e s st) by done. fold now.
  split; [by eexists|].
  assert (close_last dlast es e (datetime_str now) (timeline σ) !! dlast
    = Some (<[pred (length es) := <["end" := datetime_str now]> e]> es)) as Hnew
    by (by rewrite close_last_lookup, decide_True).
  split; [exact Hnew|].
  unfold final. cbn [snd with_timeline timeline]. intros Heq.
  rewrite Heq, Hb in Hnew. injection Hnew as Hnew.
  pose proof (last_lookup_pred es e Hl) as Hlast.
  assert (pred (length es) < length es)%nat as Hlt
    by (by apply lookup_lt_Some in Hlast).
  pose proof (list_lookup_insert_eq es (pred (length es))
                (<["end" := datetime_str now]> e) Hlt) as Hins.
  rewrite <- Hnew, Hlast in Hins. injection Hins as Hins.
  unfold is_open in Ho. by rewrite Hins, lookup_insert_eq in Ho.
Qed.

(** The interval of [y] was started on the 12th and the clock reads the
    10th. *)
Lemma C3_witness :
  outcome (current_activity active_y_session) = inr (Some entry_y_open) ∧
  outcome (done backward_clock active_y_session)
    = inl (TimelineError
        "Finishing activity before it was started. Maybe system clock is wrong?") ∧
  timeline (final (done backward_clock active_y_session)) !! "2024-01-12"
    = Some [<["end" := "2024-01-10T09:00"]> entry_y_open] ∧
  timeline (final (done backward_clock active_y_session))
    ≠ timeline active_y_session.
Proof.
  destruct (C3_failed_done_leaves_the_end_written (U:=utils) backward_clock
              active_y_session "2024-01-12" [entry_y_open] entry_y_open
              "2024-01-12T08:00" jan12_0800) as (_ & Hb & Hne);
    [compute_done..|].
  split; [compute_done|]. split; [compute_done|].
  split; [exact Hb|exact Hne].
Defined.

(** C4: when [done] closes an interval whose start date differs from its end
    date, for each offset from 1 to (day of month of the end - day of month
    of the start) the bucket of that day after the start holds an entry with
    the id, the name and the start string of the interval, the end just
    written, and the [previous] marker. *)
Theorem C4_multi_day_split `{U : Utils} (clock : nat → Timestamp) (σ : State)
    (dlast : string) (es : list Entry) (e : Entry) (s : string)
    (st : Timestamp) (i n : string) :
  last (sorted_keys (timeline σ)) = Some dlast →
  timeline σ !! dlast = Some es → last es = Some e →
  e !! "start" = Some s → parse s = Some st →
  e !! "id" = Some i → e !! "name" = Some n →
  let en := clock (ticks σ) in
  str_gt (date_str st) (date_str en) = false →
  date_str st ≠ date_str en →
  let frag : Entry :=
    {[ "id" := i; "name" := n; "start" := s; "end" := datetime_str en;
       "previous" := EmptyString ]} in
  outcome (done clock σ) = inr (st, en, n) ∧
  is_fragment frag ∧
  ∀ offset, (1 ≤ offset ≤ day en - day st)%Z →
    timeline (final (done clock σ)) !! offset_day st offset = Some [frag].
Proof.
  intros Hk Hb Hl Hs Hp Hi Hn en Hgt Hne frag.
  rewrite (done_ok clock σ dlast es e s st i n) by done. fold en.
  split; [done|]. split.
  { unfold is_fragment, frag. rewrite !dom_insert_L. set_solver. }
  intros offset Hoff. simpl. rewrite fill_days_lookup, decide_True; [done|].
  apply list_elem_of_fmap. exists offset. split; [done|].
  unfold filled_offsets. rewrite decide_True by done. apply elem_of_range. lia.
Qed.

(** The interval of the spec: started 2024-01-10T23:50, finished
    2024-01-12T00:10; the log has the buckets of the 10th, 11th and 12th. *)
Lemma C4_witness :
  let σ' := final (done forward_clock active_session) in
  let frag : Entry :=
    {[ "id" := "id-x"; "name" := "x"; "start" := "2024-01-10T23:50";
       "end" := "2024-01-12T00:10"; "previous" := EmptyString ]} in
  outcome (done forward_clock active_session)
    = inr (jan10_2350, jan12_0010, "x") ∧
  dom (timeline σ') = {[ "2024-01-10"; "2024-01-11"; "2024-01-12" ]} ∧
  timeline σ' !! "2024-01-10"
    = Some [<["end" := "2024-01-12T00:10"]> entry_x_open] ∧
  timeline σ' !! "2024-01-11" = Some [frag] ∧
  timeline σ' !! "2024-01-12" = Some [frag] ∧
  is_fragment frag.
Proof.
  intros σ' frag.
  destruct (C4_multi_day_split (U:=utils) forward_clock active_session
              "2024-01-10" [entry_x_open] entry_x_open "2024-01-10T23:50"
              jan10_2350 "id-x" "x") as (Hout & Hfrag & Hfill);
    try compute_done.
  split; [exact Hout|]. split; [compute_done|]. split; [compute_done|].
  split; [|split; [|exact Hfrag]].
  - apply (Hfill 1%Z). compute_done.
  - apply (Hfill 2%Z). compute_done.
Defined.

(** C5 (amended): [start] of a known activity [a] while [b] is open, when
    the clock does not read an earlier date than the start of [b]: [start]
    returns the completed interval of [b], whose end is the clock reading
    taken inside [done], and appends the entry of [a], whose start is the
    next reading of the clock; the entry of [b] in the log carries that end,
    or, when [done] has filled the bucket of [b] itself, that bucket begins
    with the fragment, which carries it.  When the clock reads an earlier
    date than the start of [b], [start] raises the [TimelineError] of
    [done]: the clock is read once and no entry is appended. *)
Theorem C5_start_closes_the_open_interval `{U : Utils}
    (clock : nat → Timestamp) (σ : State) (a idA dlast : string)
    (es : list Entry) (b : Entry) (s : string) (tB : Timestamp)
    (iB nB : string) :
  search_id a (activities σ) = Some idA →
  last (sorted_keys (timeline σ)) = Some dlast →
  timeline σ !! dlast = Some es → last es = Some b → is_open b →
  b !! "start" = Some s → parse s = Some tB →
  b !! "id" = Some iB → b !! "name" = Some nB →
  let now1 := clock (ticks σ) in
  let now2 := clock (S (ticks σ)) in
  let closed : Entry := <["end" := datetime_str now1]> b in
  let frag : Entry :=
    {[ "id" := iB; "name" := nB; "start" := s; "end" := datetime_str now1;
       "previous" := EmptyString ]} in
  let filled := offset_day tB <$> filled_offsets tB now1 in
  let σ' := final (start clock a σ) in
  (str_gt (date_str tB) (date_str now1) = false →
     outcome (start clock a σ) = inr (Some (tB, now1, nB)) ∧
     (∃ bucket, timeline σ' !! date_str now2
        = Some (bucket ++ [new_entry idA a (datetime_str now2)])) ∧
     (dlast ∉ filled →
        ∃ es', timeline σ' !! dlast = Some es' ∧
               es' !! pred (length es) = Some closed) ∧
     (dlast ∈ filled →
        ∃ rest, timeline σ' !! dlast = Some (frag :: rest))) ∧
  (str_gt (date_str tB) (date_str now1) = true →
     (∃ msg, outcome (start clock a σ) = inl (TimelineError msg)) ∧
     ticks σ' = S (ticks σ) ∧
     timeline σ' !! dlast = Some (<[pred (length es) := closed]> es) ∧
     ∀ d, d ≠ dlast → timeline σ' !! d = timeline σ !! d).
Proof.
  intros Ha Hk Hb Hl Ho Hs Hp Hi Hn now1 now2 closed frag filled σ'.
  unfold σ'. rewrite start_spec, Ha.
  assert (outcome (current_activity σ) = inr (Some b)) as ->.
  { apply current_activity_Some. by exists dlast, es. }
  split; intros Hgt.
  - rewrite (done_ok clock σ dlast es b s tB iB nB) by done. fold now1.
    split; [done|]. simpl. fold now2.
    set (tl1 := fill_days _ _ _ _).
    split; [|split].
    + eexists. by rewrite append_entry_lookup, decide_True.
    + intros Hnotin.
      assert (tl1 !! dlast = Some (<[pred (length es) := closed]> es)) as H1.
      { unfold tl1. rewrite fill_days_lookup, decide_False by done.
        by rewrite close_last_lookup, decide_True. }
      assert (pred (length es) < length es)%nat as Hlt.
      { apply last_Some in Hl as [l' ->]. rewrite length_app. simpl. lia. }
      rewrite append_entry_lookup. case_decide as Hd.
      * eexists. split; [done|]. rewrite <- Hd, H1. simpl.
        rewrite lookup_app_l by (by rewrite length_insert).
        by rewrite list_lookup_insert_eq.
      * eexists. split; [done|]. by rewrite list_lookup_insert_eq.
    + intros Hin.
      assert (tl1 !! dlast = Some [frag]) as H1.
      { unfold tl1. by rewrite fill_days_lookup, decide_True. }
      rewrite append_entry_lookup. case_decide as Hd.
      * rewrite <- Hd, H1. simpl. by eexists.
      * by eexists.
  - rewrite (done_skew clock σ dlast es b s tB) by done. fold now1.
    split; [by eexists|]. split; [done|].
    unfold final. cbn [snd with_timeline timeline]. split.
    + by rewrite close_last_lookup, decide_True.
    + intros d Hd. by rewrite close_last_lookup, decide_False.
Qed.

(** [y] is open since 08:00 on the 12th.  With the forward clock, [start]
    of [x] closes it at 08:00 and opens [x] at 08:01; with the clock set
    back to the 10th, [start] raises and no entry of [x] is appended. *)
Lemma C5_witness :
  let σ' := final (start forward_clock "x" active_y_session) in
  let σ'' := final (start backward_clock "x" active_y_session) in
  outcome (start forward_clock "x" active_y_session)
    = inr (Some (jan12_0800, jan12_0800, "y")) ∧
  timeline σ' !! "2024-01-12"
    = Some [<["end" := "2024-01-12T08:00"]> entry_y_open;
            new_entry "id-x" "x" "2024-01-12T08:01"] ∧
  (∃ msg, outcome (start backward_clock "x" active_y_session)
            = inl (TimelineError msg)) ∧
  timeline σ'' !! "2024-01-12"
    = Some [<["end" := "2024-01-10T09:00"]> entry_y_open] ∧
  timeline σ'' !! "2024-01-10" = None.
Proof.
  intros σ' σ''.
  destruct (C5_start_closes_the_open_interval (U:=utils) forward_clock
              active_y_session "x" "id-x" "2024-01-12" [entry_y_open]
              entry_y_open "2024-01-12T08:00" jan12_0800 "id-y" "y")
    as [Hfwd _]; [compute_done..|].
  destruct (C5_start_closes_the_open_interval (U:=utils) backward_clock
              active_y_session "x" "id-x" "2024-01-12" [entry_y_open]
              entry_y_open "2024-01-12T08:00" jan12_0800 "id-y" "y")
    as [_ Hbwd]; [compute_done..|].
  destruct (Hfwd ltac:(compute_done)) as (Hout & _ & _ & _).
  destruct (Hbwd ltac:(compute_done)) as (Hraise & _ & Hb & Hframe).
  split; [exact Hout|]. split; [compute_done|]. split; [exact Hraise|].
  split; [exact Hb|]. unfold σ''. rewrite Hframe; [reflexivity|done].
Defined.

(** The two readings need not agree: the closed interval ends at 08:00 and
    the new one starts at 08:01. *)
Lemma C5_counterexample :
  let σ' := final (start forward_clock "x" active_y_session) in
  ∃ b a : Entry,
    outcome (current_activity active_y_session) = inr (Some entry_y_open) ∧
    timeline σ' !! "2024-01-12" = Some [b; a] ∧
    b !! "name" = Some "y" ∧ b !! "end" = Some "2024-01-12T08:00" ∧
    a !! "name" = Some "x" ∧ a !! "start" = Some "2024-01-12T08:01" ∧
    is_open a ∧
    b !! "end" ≠ a !! "start".
Proof.
  intros σ'.
  exists (<["end" := "2024-01-12T08:00"]> entry_y_open),
         (new_entry "id-x" "x" "2024-01-12T08:01").
  repeat split; compute_done.
Qed.

(** C6: [recent_activities(0)] on a log with three real intervals returns
    all three: the countdown is decremented to -1 before it is compared
    with zero. *)
Theorem C6_recent_zero_returns_every_interval :
  outcome (recent_activities 0 history_session)
    = inr [("2024-01-11", [entry_y_closed; entry_x_1030]);
           ("2024-01-09", [entry_work_closed])].
Proof. compute_done. Qed.

(** C7 (amended): the days of the result of [recent_activities] are listed
    newest first (a subsequence of the keys of the log in descending order),
    and the entries of each day are the first real entries of its bucket, in
    the order of the bucket. *)
Theorem C7_recent_lists_newest_day_first (num : Z) (σ : State) :
  ∃ result, recent_activities num σ = (inr result, σ) ∧
    result.*1 `sublist_of` reverse (sorted_keys (timeline σ)) ∧
    newest_first result.*1 ∧
    ∀ d l, (d, l) ∈ result →
      l ≠ [] ∧ l `prefix_of` real_entries (default [] (timeline σ !! d)).
Proof.
  eexists. split; [apply recent_activities_spec|].
  split; [apply recent_spec_keys|]. split.
  - eapply newest_first_sublist; [apply recent_spec_keys|].
    apply newest_first_sorted_keys.
  - intros d l. apply recent_spec_entries.
Qed.

Lemma C7_witness :
  ∃ result, recent_activities 2 history_session = (inr result, history_session) ∧
    result.*1 `sublist_of` ["2024-01-11"; "2024-01-09"] ∧
    newest_first result.*1.
Proof.
  destruct (C7_recent_lists_newest_day_first 2 history_session)
    as (result & Hres & Hsub & Hnew & _).
  exists result. split; [exact Hres|]. split; [exact Hsub|exact Hnew].
Defined.

(** The first day of the result is the newest. *)
Lemma C7_counterexample :
  outcome (recent_activities 5 history_session)
    = inr [("2024-01-11", [entry_y_closed; entry_x_1030]);
           ("2024-01-09", [entry_work_closed])] ∧
  ¬ ("2024-01-11" ≤ "2024-01-09")%string.
Proof. split; compute_done. Qed.

(** C8 (amended): [new_activity] on a path whose last segment names an
    existing child of the destination sets the value of that name to a new
    leaf with the next uuid and no children; the names of the destination,
    their order and the other children are unchanged, so the earlier node of
    that name is replaced. *)
Theorem C8_insert_replaces_leaf_of_same_name (uuid4 : nat → string)
    (σ : State) (activity : string) (parents : bool) (path : list string)
    (leaf : string) (dest : list (string * (string * JSONActivities)))
    (old : string * JSONActivities) :
  tail (split "/" activity) = path ++ [leaf] →
  EmptyString ∉ path ++ [leaf] →
  resolve path (items (activities σ)) = Some dest →
  dict_get leaf dest = Some old →
  let σ' := final (new_activity uuid4 activity parents σ) in
  outcome (new_activity uuid4 activity parents σ) = inr tt ∧
  timeline σ' = timeline σ ∧
  ∃ dest', resolve path (items (activities σ')) = Some dest' ∧
    dict_get leaf dest' = Some (uuid4 (uuids σ), Cat []) ∧
    dest'.*1 = dest.*1 ∧
    ∀ name, name ≠ leaf → dict_get name dest' = dict_get name dest.
Proof.
  intros Hsplit Hne Hres Hold σ'. unfold σ', new_activity.
  rewrite Hsplit, decide_False by done.
  unfold bind, unpack_last. rewrite last_snoc, removelast_last. unfold ret.
  destruct (walk_existing uuid4 parents activity path leaf _ (uuids σ) dest Hres)
    as (cur' & -> & Hres').
  split; [done|]. split; [done|]. simpl.
  eexists. split; [exact Hres'|]. split; [apply dict_get_set_eq|]. split.
  - apply dict_set_keys. by eauto.
  - intros name Hname. by apply dict_get_set_ne.
Qed.

Lemma C8_witness :
  let σ' := final (new_activity uuid4 "/work/x" false deep_session) in
  outcome (new_activity uuid4 "/work/x" false deep_session) = inr tt ∧
  ∃ dest', resolve ["work"] (items (activities σ')) = Some dest' ∧
    dict_get "x" dest' = Some ("uuid-0000", Cat []) ∧
    dest'.*1 = ["x"; "y"].
Proof.
  intros σ'.
  destruct (C8_insert_replaces_leaf_of_same_name uuid4 deep_session "/work/x"
              false ["work"] "x"
              [("x", ("id-x", Cat [("z", ("id-z", Cat []))])); ("y", ("id-y", Cat []))]
              ("id-x", Cat [("z", ("id-z", Cat []))]))
    as (Hout & _ & dest' & Hres & Hget & Hkeys & _); try compute_done.
  split; [exact Hout|]. exists dest'. split; [exact Hres|].
  split; [exact Hget|exact Hkeys].
Defined.

(** The identifier and the child of the node that was there are gone. *)
Lemma C8_counterexample :
  let σ' := final (new_activity uuid4 "/work/x" false deep_session) in
  search_id "x" (activities deep_session) = Some "id-x" ∧
  search_id "z" (activities deep_session) = Some "id-z" ∧
  outcome (new_activity uuid4 "/work/x" false deep_session) = inr tt ∧
  activities σ' =
    Cat [("work", ("id-work", Cat [("x", ("uuid-0000", Cat []));
                                   ("y", ("id-y", Cat []))]))] ∧
  search_id "x" (activities σ') = Some "uuid-0000" ∧
  search_id "z" (activities σ') = None.
Proof. repeat split; compute_done. Qed.



(** C10: if every day of the log has a non-empty bucket, then after every
    sequence of [start], [done], [recent_activities] and [current_activity]
    calls every day still has one; the last bucket has a last entry,
    [current_activity] raises nothing, and [done] on a non-empty log raises
    no [IndexError]. *)
Theorem C10_day_buckets_stay_nonempty `{U : Utils} (clock : nat → Timestamp)
    (ops : list Op) (σ : State) :
  nonempty_buckets (timeline σ) →
  let σ' := run_ops clock ops σ in
  nonempty_buckets (timeline σ') ∧
  (∀ d, last (sorted_keys (timeline σ')) = Some d →
        ∃ es e, timeline σ' !! d = Some es ∧ last es = Some e) ∧
  (∃ cur, outcome (current_activity σ') = inr cur) ∧
  (timeline σ' ≠ ∅ → outcome (done clock σ') ≠ inl IndexError).
Proof.
  intros Hne σ'. assert (nonempty_buckets (timeline σ')) as Hne'
    by by apply run_ops_nonempty.
  split; [done|]. split; [|split].
  - intros d. by apply last_bucket_in_bounds.
  - by apply current_activity_in_bounds.
  - by apply done_in_bounds.
Qed.

Lemma C10_witness :
  let σ' := run_ops forward_clock [OpStart "y"; OpRecent 1; OpDone; OpCurrent]
              active_session in
  nonempty_buckets (timeline active_session) ∧
  nonempty_buckets (timeline σ') ∧
  (∃ cur, outcome (current_activity σ') = inr cur) ∧
  outcome (done forward_clock σ') ≠ inl IndexError.
Proof.
  intros σ'.
  assert (nonempty_buckets (timeline active_session)) as Hne.
  { apply map_Forall_singleton. done. }
  split; [exact Hne|].
  destruct (C10_day_buckets_stay_nonempty (U:=utils) forward_clock
              [OpStart "y"; OpRecent 1; OpDone; OpCurrent] active_session Hne)
    as (H1 & _ & H3 & H4).
  split; [exact H1|]. split; [exact H3|]. apply H4.
  compute_done.
Defined.

End claims.

(** * Further properties of the code *)

(** ** Strings, dictionaries and the searches of the hierarchy *)

Lemma JSONActivities_nested_ind (P : JSONActivities → Prop) :
  (∀ l, Forall (λ p, P p.2.2) l → P (Cat l)) → ∀ c, P c.
Proof.
  intros H. fix IH 1. intros [l]. apply H.
  induction l as [|[n [i ch]] l IHl]; constructor; [apply IH|apply IHl].
Qed.

Lemma string_app_nil_l (b : string) : EmptyString +:+ b = b.
Proof. reflexivity. Qed.

Lemma string_app_cons x (a b : string) : String x a +:+ b = String x (a +:+ b).
Proof. reflexivity. Qed.

Lemma string_app_nil_r (a : string) : a +:+ EmptyString = a.
Proof. induction a as [|x a IH]; [done|]. rewrite string_app_cons. by f_equal. Qed.

Lemma string_app_assoc (a b c : string) : (a +:+ b) +:+ c = a +:+ (b +:+ c).
Proof.
  induction a as [|x a IH]; [done|].
  rewrite !string_app_cons. by f_equal.
Qed.

Lemma dict_get_app {V} k (a b : list (string * V)) :
  dict_get k (a ++ b) =
    match dict_get k a with Some v => Some v | None => dict_get k b end.
Proof.
  induction a as [|[k' v] a IH]; simpl; [done|].
  destruct (decide (k = k')); done.
Qed.

Lemma dict_get_Some_elem_of {V} k (v : V) d : dict_get k d = Some v → (k, v) ∈ d.
Proof.
  induction d as [|[k' v'] d IH]; simpl; [done|].
  destruct (decide (k = k')) as [->|]; [intros [= ->]; left|right; auto].
Qed.

Lemma search_id_cons activity name id children rest :
  search_id activity (Cat ((name, (id, children)) :: rest)) =
    if decide (name = activity) then Some id
    else match search_id activity children with
         | Some potential_id => Some potential_id
         | None => search_id activity (Cat rest)
         end.
Proof. reflexivity. Qed.

Lemma search_path_cons activity path name id children rest :
  search_path activity path (Cat ((name, (id, children)) :: rest)) =
    if decide (name = activity) then Some (path +:+ "/" +:+ activity)
    else match search_path activity (path +:+ "/" +:+ name) children with
         | Some potential_path => Some potential_path
         | None => search_path activity path (Cat rest)
         end.
Proof. reflexivity. Qed.

Lemma preorder_cons name id children rest :
  preorder (Cat ((name, (id, children)) :: rest)) =
    (name, id) :: preorder children ++ preorder (Cat rest).
Proof. reflexivity. Qed.


Lemma search_id_preorder (activity : string) (c : JSONActivities) :
  search_id activity c = dict_get activity (preorder c).
Proof.
  induction c as [l IH] using JSONActivities_nested_ind.
  induction l as [|[name [id children]] rest IHrest]; [done|].
  apply Forall_cons in IH as [IHc IHr]. simpl in IHc.
  rewrite search_id_cons, preorder_cons. cbn [dict_get].
  rewrite dict_get_app, <- IHc, <- (IHrest IHr).
  destruct (decide (name = activity)) as [->|Hne].
  - by rewrite decide_True.
  - by rewrite decide_False.
Qed.

Lemma search_path_None_iff activity path c :
  search_path activity path c = None ↔ search_id activity c = None.
Proof.
  revert path. induction c as [l IH] using JSONActivities_nested_ind. intros path.
  induction l as [|[name [id children]] rest IHrest]; [done|].
  apply Forall_cons in IH as [IHc IHr]. simpl in IHc.
  rewrite search_id_cons, search_path_cons.
  destruct (decide (name = activity)); [done|].
  specialize (IHc (path +:+ "/" +:+ name)).
  destruct (search_path activity (path +:+ "/" +:+ name) children),
    (search_id activity children);
    try done; try (by destruct IHc as [H1 H2]; (discriminate H1 || discriminate H2)).
  by apply IHrest.
Qed.

Lemma path_str_cons s segments :
  path_str (s :: segments) = "/" +:+ s +:+ path_str segments.
Proof. reflexivity. Qed.

Lemma search_path_sound activity path c p :
  search_path activity path c = Some p →
  ∃ segments, p = path +:+ path_str segments ∧
    last segments = Some activity ∧ has_path c segments.
Proof.
  revert path. induction c as [l IH] using JSONActivities_nested_ind. intros path.
  induction l as [|[name [id children]] rest IHrest]; [done|].
  apply Forall_cons in IH as [IHc IHr]. simpl in IHc.
  rewrite search_path_cons.
  destruct (decide (name = activity)) as [->|Hne].
  - intros [= <-]. exists [activity]. split; [|split; [done|]].
    + unfold path_str. cbn [foldr]. by rewrite string_app_nil_r.
    + eapply has_path_here. left.
  - destruct (search_path activity (path +:+ "/" +:+ name) children) as [q|] eqn:Hq.
    + intros [= <-]. destruct (IHc _ Hq) as (segs & -> & Hlast & Hpath).
      exists (name :: segs). split; [|split].
      * rewrite path_str_cons. by rewrite !string_app_assoc.
      * destruct segs; [done|]. done.
      * eapply has_path_below; [left|done].
    + intros Hrest. destruct (IHrest IHr Hrest) as (segs & -> & Hlast & Hpath).
      exists segs. split; [done|]. split; [done|].
      inversion Hpath; subst.
      * eapply has_path_here. by right.
      * eapply has_path_below; [by right|done].
Qed.

(** ** What [new_activity]'s walk does to the hierarchy *)

Section insert_facts.
Variable uuid4 : nat → string.
Implicit Types cur dest : list (string * (string * JSONActivities)).

Lemma dict_set_set {V} k (v v0 : V) d :
  dict_set k v (dict_set k v0 d) = dict_set k v d.
Proof.
  induction d as [|[k' v'] d IH]; simpl.
  - by rewrite decide_True.
  - destruct (decide (k = k')) as [->|Hne]; simpl.
    + by rewrite decide_True.
    + rewrite decide_False by done. by rewrite IH.
Qed.

Lemma dict_set_fresh {V} k (v : V) d :
  dict_get k d = None → dict_set k v d = d ++ [(k, v)].
Proof.
  induction d as [|[k' v'] d IH]; simpl; [done|].
  destruct (decide (k = k')); [done|]. intros H. by rewrite IH.
Qed.

Lemma walk_success parents activity path leaf cur n cur' n' :
  walk uuid4 parents activity path leaf cur n = (None, cur', n') →
  (n < n')%nat ∧
  ∃ dest', resolve path cur' = Some dest' ∧
           dict_get leaf dest' = Some (uuid4 (pred n'), Cat []).
Proof.
  revert cur n cur' n'. induction path as [|c rest IH]; intros cur n cur' n'; simpl.
  - intros [= <- <-]. split; [lia|]. eexists. split; [done|].
    apply dict_get_set_eq.
  - destruct (dict_get c cur) as [[id children]|] eqn:Hc.
    + destruct (walk uuid4 parents activity rest leaf (items children) n)
        as [[r ch] m] eqn:Hw.
      intros [= -> <- <-]. destruct (IH _ _ _ _ Hw) as (Hlt & dest' & Hres & Hget).
      split; [done|]. exists dest'. by rewrite dict_get_set_eq.
    + destruct parents; [|done].
      destruct (walk uuid4 true activity rest leaf [] (S n)) as [[r ch] m] eqn:Hw.
      intros [= -> <- <-]. destruct (IH _ _ _ _ Hw) as (Hlt & dest' & Hres & Hget).
      split; [lia|]. exists dest'. by rewrite dict_get_set_eq.
Qed.

Lemma walk_missing activity path leaf cur n :
  resolve path cur = None →
  ∃ msg, walk uuid4 false activity path leaf cur n = (Some (ValueError msg), cur, n).
Proof.
  revert cur. induction path as [|c rest IH]; intros cur; simpl; [done|].
  destruct (dict_get c cur) as [[id children]|] eqn:Hc; [|by eauto].
  intros Hres. destruct (IH _ Hres) as [msg ->]. exists msg.
  by rewrite Cat_items, dict_set_same.
Qed.

Lemma search_id_here leaf cur :
  is_Some (dict_get leaf cur) → is_Some (search_id leaf (Cat cur)).
Proof.
  induction cur as [|[n [i ch]] cur IH]; simpl dict_get; [by intros [? ?]|].
  rewrite search_id_cons. destruct (decide (leaf = n)) as [->|Hne].
  - by rewrite decide_True.
  - intros H. rewrite decide_False by done.
    destruct (search_id leaf ch); [done|by apply IH].
Qed.

Lemma search_id_below leaf c id children cur :
  dict_get c cur = Some (id, children) →
  is_Some (search_id leaf children) → is_Some (search_id leaf (Cat cur)).
Proof.
  intros Hc Hch. induction cur as [|[n [i ch]] cur IH]; [done|].
  simpl in Hc. rewrite search_id_cons.
  destruct (decide (n = leaf)); [done|].
  destruct (decide (c = n)) as [->|Hne].
  - simplify_eq. by destruct Hch as [? ->].
  - destruct (search_id leaf ch); [done|by apply IH].
Qed.

Lemma search_id_resolve leaf path cur dest :
  resolve path cur = Some dest → is_Some (dict_get leaf dest) →
  is_Some (search_id leaf (Cat cur)).
Proof.
  revert cur. induction path as [|c rest IH]; intros cur; simpl.
  - intros [= ->]. apply search_id_here.
  - destruct (dict_get c cur) as [[id children]|] eqn:Hc; [|done].
    intros Hres Hget. eapply search_id_below; [done|].
    rewrite <- (Cat_items children). by eapply IH.
Qed.

Lemma search_id_set_leaf name leaf v dest :
  name ≠ leaf → dict_get leaf dest = None →
  search_id name (Cat (dict_set leaf (v, Cat []) dest)) = search_id name (Cat dest).
Proof.
  intros Hne. induction dest as [|[n [i ch]] dest IH]; simpl dict_get; simpl dict_set.
  - intros _. rewrite search_id_cons. by rewrite decide_False.
  - destruct (decide (leaf = n)); [done|]. intros H.
    rewrite !search_id_cons, IH by done. done.
Qed.

Lemma search_id_set_children name c id ch ch' cur :
  dict_get c cur = Some (id, ch) →
  search_id name ch' = search_id name ch →
  search_id name (Cat (dict_set c (id, ch') cur)) = search_id name (Cat cur).
Proof.
  intros Hc Heq. induction cur as [|[n [i ch0]] cur IH]; [done|].
  simpl in Hc. simpl dict_set. destruct (decide (c = n)) as [->|Hne].
  - simplify_eq. by rewrite !search_id_cons, Heq.
  - by rewrite !search_id_cons, IH.
Qed.

Lemma search_id_append_node name c id ch cur :
  name ≠ c → search_id name ch = None →
  search_id name (Cat (cur ++ [(c, (id, ch))])) = search_id name (Cat cur).
Proof.
  intros Hne Hch. induction cur as [|[n [i ch0]] cur IH].
  - simpl app. rewrite search_id_cons, decide_False by done. by rewrite Hch.
  - simpl app. by rewrite !search_id_cons, IH.
Qed.

Lemma walk_keeps_other_ids parents activity name path leaf cur n cur' n' :
  name ∉ path ++ [leaf] →
  (∀ dest, resolve path cur = Some dest → dict_get leaf dest = None) →
  walk uuid4 parents activity path leaf cur n = (None, cur', n') →
  search_id name (Cat cur') = search_id name (Cat cur).
Proof.
  revert cur n cur' n'. induction path as [|c rest IH]; intros cur n cur' n' Hname Hfree; simpl.
  - intros [= <- <-]. apply search_id_set_leaf; [set_solver|]. by apply Hfree.
  - assert (name ≠ c) as Hc' by set_solver.
    assert (name ∉ rest ++ [leaf]) as Hrest by set_solver.
    destruct (dict_get c cur) as [[id children]|] eqn:Hc.
    + destruct (walk uuid4 parents activity rest leaf (items children) n)
        as [[r ch] m] eqn:Hw.
      intros [= -> <- <-]. apply search_id_set_children with (ch := children); [done|].
      destruct children as [chl]. simpl in Hw. eapply IH; [done| |done].
      intros dest Hd. apply Hfree. simpl. by rewrite Hc.
    + destruct parents; [|done].
      destruct (walk uuid4 true activity rest leaf [] (S n)) as [[r ch] m] eqn:Hw.
      intros [= -> <- <-]. rewrite dict_set_set, dict_set_fresh by done.
      apply search_id_append_node; [done|].
      transitivity (search_id name (Cat [])); [|done].
      eapply IH; [done| |exact Hw].
      intros dest Hd. destruct rest; simpl in Hd; by simplify_eq.
Qed.
End insert_facts.

Section new_activity_facts.
Variable uuid4 : nat → string.

Lemma new_activity_unfold activity parents σ path leaf :
  tail (split "/" activity) = path ++ [leaf] →
  EmptyString ∉ path ++ [leaf] →
  new_activity uuid4 activity parents σ =
    let '(r, acts', n') :=
      walk uuid4 parents activity path leaf (items (activities σ)) (uuids σ) in
    let σ' := mkState (timeline σ) (Cat acts') (ticks σ) n' in
    match r with
    | Some e => (inl e, σ')
    | None => (inr tt, σ')
    end.
Proof.
  intros Hsplit Hne. unfold new_activity.
  rewrite Hsplit, decide_False by done.
  unfold bind, unpack_last. by rewrite last_snoc, removelast_last.
Qed.
End new_activity_facts.

(** ** Splitting a path that was joined *)

Lemma split_nonempty sep s : split sep s ≠ [].
Proof.
  destruct s as [|c s]; simpl; [done|].
  destruct (decide (c = sep)); [done|]. by destruct (split sep s).
Qed.

Lemma split_noslash_app s t :
  no_slash s →
  split "/" (s +:+ t) =
    match split "/" t with
    | h :: tl => (s +:+ h) :: tl
    | [] => [s]
    end.
Proof.
  unfold no_slash. induction s as [|c s IH]; intros Hs.
  - rewrite string_app_nil_l. destruct (split "/" t) eqn:E; [|done].
    by destruct (split_nonempty "/" t).
  - simpl in Hs. apply Forall_cons in Hs as [Hc Hs].
    rewrite string_app_cons. cbn [split]. rewrite decide_False by done.
    rewrite IH by done. destruct (split "/" t) as [|h tl] eqn:E.
    + by destruct (split_nonempty "/" t).
    + by rewrite string_app_cons.
Qed.

Lemma split_path_str segments :
  Forall no_slash segments → split "/" (path_str segments) = EmptyString :: segments.
Proof.
  induction 1 as [|s segments Hs Hsegs IH]; [done|].
  rewrite path_str_cons. change ("/" +:+ s +:+ path_str segments)
    with (String "/" (s +:+ path_str segments)).
  cbn [split]. rewrite decide_True by done.
  by rewrite split_noslash_app, IH, string_app_nil_r.
Qed.

Section chain.
Variable uuid4 : nat → string.

Lemma walk_chain activity path leaf n prefix :
  leaf ∉ path →
  ∃ cur', walk uuid4 true activity path leaf [] n = (None, cur', S (n + length path)) ∧
    search_path leaf prefix (Cat cur') = Some (prefix +:+ path_str (path ++ [leaf])) ∧
    search_id leaf (Cat cur') = Some (uuid4 (n + length path)).
Proof.
  revert n prefix. induction path as [|c rest IH]; intros n prefix Hleaf.
  - eexists. split; [simpl; by rewrite Nat.add_0_r|]. split.
    + rewrite search_path_cons, decide_True by done.
      unfold path_str. cbn [app foldr]. by rewrite string_app_nil_r.
    + rewrite search_id_cons, decide_True by done. by rewrite Nat.add_0_r.
  - assert (c ≠ leaf) by set_solver. assert (leaf ∉ rest) as Hrest by set_solver.
    destruct (IH (S n) (prefix +:+ "/" +:+ c) Hrest) as (ch & Hw & Hp & Hi).
    cbn [walk dict_get]. rewrite Hw. cbn [dict_set]. rewrite decide_True by done.
    eexists. split; [cbn [length]; by rewrite Nat.add_succ_r|]. split.
    + rewrite search_path_cons, decide_False by done. rewrite Hp.
      cbn [app]. rewrite path_str_cons. by rewrite !string_app_assoc.
    + rewrite search_id_cons, decide_False by done. rewrite Hi.
      cbn [length]. by rewrite Nat.add_succ_r.
Qed.
End chain.

(** ** More on [done] and [start] *)

Section more_done_facts.
Context `{U : Utils}.
Variable clock : nat → Timestamp.

Lemma range_empty lo hi : (hi ≤ lo)%Z → range lo hi = [].
Proof. intros H. unfold range. by replace (Z.to_nat (hi - lo)) with 0%nat by lia. Qed.

Lemma filled_offsets_empty st en :
  date_str st = date_str en ∨ (day en ≤ day st)%Z → filled_offsets st en = [].
Proof.
  intros [Heq|Hle]; unfold filled_offsets; case_decide; try done.
  apply range_empty. lia.
Qed.

Lemma done_ok_nofill σ dlast es e s st n :
  last (sorted_keys (timeline σ)) = Some dlast →
  timeline σ !! dlast = Some es → last es = Some e →
  e !! "start" = Some s → parse s = Some st → e !! "name" = Some n →
  let en := clock (ticks σ) in
  str_gt (date_str st) (date_str en) = false →
  filled_offsets st en = [] →
  done clock σ =
    (inr (st, en, n),
     with_timeline σ (close_last dlast es e (datetime_str en) (timeline σ))
       (S (ticks σ))).
Proof.
  intros Hk Hb Hl Hs Hp Hn en Hgt Hoff. unfold done.
  unfold_monad. rewrite Hk. simpl. rewrite Hb. simpl. rewrite Hl. simpl.
  rewrite Hs. simpl. rewrite Hp. simpl. fold en. rewrite Hgt. simpl.
  unfold filled_offsets in Hoff.
  destruct (decide (date_str st ≠ date_str en)) as [Hne|Heq].
  - rewrite Hoff. simpl. rewrite lookup_insert_ne by done. by rewrite Hn.
  - simpl. rewrite lookup_insert_ne by done. by rewrite Hn.
Qed.

Lemma for_each_fill_raise_key (e : Entry) (st en : Timestamp) s offs σ :
  e !! "start" = Some s →
  e !! "id" = None ∨ e !! "name" = None →
  offs ≠ [] →
  ∃ k, (k = "id" ∨ k = "name") ∧
       for_each offs (fill_day e st en) σ = (inl (KeyError k), σ).
Proof.
  intros Hs H Hoffs. destruct offs as [|off offs]; [done|].
  cbn [for_each]. unfold bind at 1. unfold fill_day. unfold_monad.
  destruct (e !! "id"); simpl; [|by eauto].
  destruct (e !! "name"); simpl; [|by eauto].
  by destruct H.
Qed.

Lemma new_entry_lookups id name start_ :
  new_entry id name start_ !! "id" = Some id ∧
  new_entry id name start_ !! "name" = Some name ∧
  new_entry id name start_ !! "start" = Some start_.
Proof.
  unfold new_entry. split; [|split]; reflexivity.
Qed.

Lemma fragment_end i n s end_ : fragment i n s end_ !! "end" = Some end_.
Proof.
  unfold fragment. do 3 (rewrite lookup_insert_ne by done).
  by rewrite lookup_insert_eq.
Qed.

Local Ltac close_done_case :=
  unfold filled_offsets; case_decide;
  first [done | reflexivity
        | match goal with H : range _ _ = _ |- _ => by rewrite H end].

(** What a [done] that returns has done. *)
Lemma done_inr_inv σ r :
  outcome (done clock σ) = inr r →
  let en := clock (ticks σ) in
  ∃ dlast es e s st n frag,
    last (sorted_keys (timeline σ)) = Some dlast ∧
    timeline σ !! dlast = Some es ∧ last es = Some e ∧
    e !! "start" = Some s ∧ parse s = Some st ∧ e !! "name" = Some n ∧
    str_gt (date_str st) (date_str en) = false ∧
    r = (st, en, n) ∧
    frag !! "end" = Some (datetime_str en) ∧
    final (done clock σ) =
      with_timeline σ
        (fill_days st frag (filled_offsets st en)
           (close_last dlast es e (datetime_str en) (timeline σ)))
        (S (ticks σ)).
Proof.
  intros Hout en. revert Hout. unfold done. unfold_monad.
  destruct (last (sorted_keys (timeline σ))) as [dlast|] eqn:Hk; simpl; [|done].
  destruct (timeline σ !! dlast) as [es|] eqn:Hb; simpl; [|done].
  destruct (last es) as [e|] eqn:Hl; simpl; [|done].
  destruct (e !! "start") as [s|] eqn:Hs; simpl; [|done].
  destruct (parse s) as [st|] eqn:Hp; simpl; [|done].
  fold en. destruct (str_gt (date_str st) (date_str en)) eqn:Hgt; simpl; [done|].
  set (e' := <["end" := datetime_str en]> e).
  assert (e' !! "start" = Some s) as Hs' by (unfold e'; by rewrite lookup_insert_ne).
  assert (e' !! "name" = e !! "name") as Hn' by (unfold e'; by rewrite lookup_insert_ne).
  assert (e' !! "id" = e !! "id") as Hi' by (unfold e'; by rewrite lookup_insert_ne).
  destruct (decide (date_str st ≠ date_str en)) as [Hne|Heq]; simpl.
  - destruct (e !! "id") as [i|] eqn:Hi; [destruct (e !! "name") as [n|] eqn:Hn|].
    + rewrite (for_each_fill _ st _ i n s) by done. simpl. rewrite Hn'. simpl.
      intros [= <-]. exists dlast, es, e, s, st, n, (fragment i n s (datetime_str en)).
      repeat split; first [done | apply fragment_end | close_done_case].
    + destruct (range 1 (day en - day st + 1)) as [|o os] eqn:Hr.
      * simpl. by rewrite Hn'.
      * edestruct (for_each_fill_raise_key e' st en s (o :: os)) as (k & _ & ->);
          [done|right; by rewrite Hn'|done|done].
    + destruct (range 1 (day en - day st + 1)) as [|o os] eqn:Hr.
      * simpl. rewrite Hn'. destruct (e !! "name") as [n|] eqn:Hn; simpl; [|done].
        intros [= <-].
        exists dlast, es, e, s, st, n, (fragment EmptyString n s (datetime_str en)).
        repeat split; first [done | apply fragment_end | close_done_case].
      * edestruct (for_each_fill_raise_key e' st en s (o :: os)) as (k & _ & ->);
          [done|left; by rewrite Hi'|done|done].
  - rewrite Hn'. destruct (e !! "name") as [n|] eqn:Hn; simpl; [|done].
    intros [= <-].
    exists dlast, es, e, s, st, n, (fragment EmptyString n s (datetime_str en)).
    repeat split; first [done | apply fragment_end | close_done_case].
Qed.

Lemma last_insert_last {A} (l : list A) x y :
  last l = Some x → last (<[pred (length l) := y]> l) = Some y.
Proof.
  intros Hl. apply last_Some in Hl as [l' ->].
  rewrite length_app. simpl. replace (pred (length l' + 1)) with (length l' + 0)%nat by lia.
  rewrite insert_app_r. simpl. by rewrite last_snoc.
Qed.

Lemma done_then_idle σ r :
  outcome (done clock σ) = inr r →
  outcome (current_activity (final (done clock σ))) = inr None.
Proof.
  intros Hout. destruct (done_inr_inv σ r Hout)
    as (dlast & es & e & s & st & n & frag & Hk & Hb & Hl & Hs & Hp & Hn & Hgt & -> & Hfe & ->).
  set (en := clock (ticks σ)) in *.
  set (tl' := fill_days st frag (filled_offsets st en)
                (close_last dlast es e (datetime_str en) (timeline σ))).
  assert (Hlook : ∀ d, tl' !! d =
     if decide (d ∈ offset_day st <$> filled_offsets st en) then Some [frag]
     else if decide (d = dlast)
          then Some (<[pred (length es) := <["end" := datetime_str en]> e]> es)
          else timeline σ !! d).
  { intros d. unfold tl'. by rewrite fill_days_lookup, close_last_lookup. }
  apply current_activity_None. right. simpl. fold tl'.
  destruct (last (sorted_keys tl')) as [k|] eqn:Hk'.
  2:{ apply last_sorted_keys_None in Hk'.
      pose proof (Hlook dlast) as H. rewrite Hk', lookup_empty in H.
      repeat case_decide; done. }
  pose proof (proj1 (last_sorted_keys_Some tl' k) Hk') as [Hin Hmax].
  exists k. rewrite (Hlook k).
  destruct (decide (k ∈ offset_day st <$> filled_offsets st en)).
  { exists [frag], frag. split; [done|]. split; [done|]. split; [done|].
    unfold is_open. by rewrite Hfe. }
  destruct (decide (k = dlast)) as [->|Hne].
  { eexists _, _. split; [done|]. split; [done|]. split.
    - by eapply last_insert_last.
    - unfold is_open. by rewrite lookup_insert_eq. }
  exfalso. apply Hne. apply (anti_symm String.le).
  - apply (proj1 (last_sorted_keys_Some (timeline σ) dlast) Hk).
    apply elem_of_dom in Hin as [x Hx]. rewrite Hlook in Hx.
    rewrite !decide_False in Hx by done. apply elem_of_dom. eauto.
  - apply Hmax. apply elem_of_dom. rewrite (Hlook dlast).
    repeat case_decide; by eauto.
Qed.

Lemma current_activity_opened id name σ :
  (∀ d, d ∈ dom (timeline σ) → (d ≤ date_str (clock (ticks σ)))%string) →
  outcome (current_activity (opened clock id name σ))
    = inr (Some (new_entry id name (datetime_str (clock (ticks σ))))).
Proof.
  intros Hkeys. apply current_activity_Some. simpl.
  set (now := clock (ticks σ)).
  exists (date_str now), (default [] (timeline σ !! date_str now)
                            ++ [new_entry id name (datetime_str now)]).
  split; [|split; [|split]].
  - apply last_sorted_keys_Some. split.
    + apply elem_of_dom. rewrite append_entry_lookup, decide_True by done. eauto.
    + intros k Hk. apply elem_of_dom in Hk as [es Hk].
      rewrite append_entry_lookup in Hk. case_decide; simplify_eq; [done|].
      apply Hkeys. apply elem_of_dom. eauto.
  - by rewrite append_entry_lookup, decide_True.
  - apply last_snoc.
  - done.
Qed.
End more_done_facts.

(** ** The failures of [new_activity] *)

Section cli_facts.
Context `{U : Utils}.
Variable clock : nat → Timestamp.
Variable uuid4 : nat → string.

Lemma walk_raises_ValueError parents activity path leaf cur n e cur' n' :
  walk uuid4 parents activity path leaf cur n = (Some e, cur', n') →
  ∃ msg, e = ValueError msg.
Proof.
  revert cur n cur' n'. induction path as [|c rest IH]; intros cur n cur' n'; simpl; [done|].
  destruct (dict_get c cur) as [[id children]|].
  - destruct (walk uuid4 parents activity rest leaf (items children) n)
      as [[r ch] m] eqn:Hw.
    intros [= -> <- <-]. by eapply IH.
  - destruct parents.
    + destruct (walk uuid4 true activity rest leaf [] (S n)) as [[r ch] m] eqn:Hw.
      intros [= -> <- <-]. by eapply IH.
    + intros [= <- <- <-]. eauto.
Qed.

Lemma new_activity_raises_ValueError activity parents σ x :
  outcome (new_activity uuid4 activity parents σ) = inl x →
  ∃ msg, x = ValueError msg.
Proof.
  unfold new_activity. case_decide; [intros [= <-]; eauto|].
  unfold bind, unpack_last.
  destruct (last (tail (split "/" activity))) as [leaf|]; [|intros [= <-]; eauto].
  unfold ret.
  destruct (walk uuid4 parents activity (removelast (tail (split "/" activity))) leaf
              (items (activities σ)) (uuids σ)) as [[r acts'] n'] eqn:Hw.
  destruct r as [e|]; [|done]. intros [= <-].
  by eapply walk_raises_ValueError.
Qed.
End cli_facts.

(** ** Properties beyond the claims *)

Section further.
Import Calendar Examples.

(** X1 ([activity_id]): the lookup never fails and never changes the state;
    its answer is the identifier of the first node that carries the name
    when the hierarchy is walked depth first, every node before its
    children and the children in the order of their dictionary, and [None]
    when no node carries the name. *)
Theorem X1_activity_id_is_first_match_in_preorder (activity : string) (σ : State) :
  activity_id activity σ
    = (inr (dict_get activity (preorder (activities σ))), σ).
Proof.
  unfold activity_id, bind, get_activities, ret.
  by rewrite search_id_preorder.
Qed.

(** X2 ([activity_path]): the lookup never fails and never changes the
    state; it answers [None] exactly when [activity_id] finds no identifier
    for the name; and a path it returns is [/p1/.../pn] for names [p1 ... pn]
    that are nested in the hierarchy from its top, with [pn] the activity
    asked for. *)
Theorem X2_activity_path_leads_to_the_activity (activity : string) (σ : State) :
  ∃ r, activity_path activity σ = (inr r, σ) ∧
    (r = None ↔ search_id activity (activities σ) = None) ∧
    ∀ p, r = Some p →
      ∃ segments, p = path_str segments ∧ last segments = Some activity ∧
                  has_path (activities σ) segments.
Proof.
  eexists. split; [reflexivity|]. split.
  - apply search_path_None_iff.
  - intros p Hp. destruct (search_path_sound _ _ _ _ Hp) as (segs & -> & Hl & Hh).
    exists segs. by rewrite string_app_nil_l.
Qed.

Lemma X2_witness :
  activity_path "z" deep_session = (inr (Some "/work/x/z"), deep_session) ∧
  ∃ segments, "/work/x/z" = path_str segments ∧ last segments = Some "z" ∧
              has_path (activities deep_session) segments.
Proof.
  destruct (X2_activity_path_leads_to_the_activity "z" deep_session)
    as (r & Hr & _ & Hp).
  assert (r = Some "/work/x/z") as ->.
  { assert (activity_path "z" deep_session = (inr (Some "/work/x/z"), deep_session))
      as Hc by compute_done.
    rewrite Hc in Hr. by injection Hr. }
  split; [exact Hr|]. by apply Hp.
Defined.

(** X3 ([new_activity], [parents=True]): on a path [/p1/.../pn] with no
    empty name the call always succeeds; it touches neither the log nor the
    clock, draws at least one fresh identifier, and afterwards [p1 ... p(n-1)]
    lead to a dictionary in which [pn] has the identifier drawn last and no
    children. *)
Theorem X3_create_with_parents_always_succeeds (uuid4 : nat → string)
    (σ : State) (activity : string) (path : list string) (leaf : string) :
  tail (split "/" activity) = path ++ [leaf] →
  EmptyString ∉ path ++ [leaf] →
  let σ' := final (new_activity uuid4 activity true σ) in
  outcome (new_activity uuid4 activity true σ) = inr tt ∧
  timeline σ' = timeline σ ∧ ticks σ' = ticks σ ∧
  (uuids σ < uuids σ')%nat ∧
  ∃ dest, resolve path (items (activities σ')) = Some dest ∧
          dict_get leaf dest = Some (uuid4 (pred (uuids σ')), Cat []).
Proof.
  intros Hsplit Hne σ'. unfold σ'.
  rewrite (new_activity_unfold uuid4 activity true σ path leaf) by done.
  pose proof (walk_parents_succeeds uuid4 activity path leaf
                (items (activities σ)) (uuids σ)) as Hr.
  destruct (walk uuid4 true activity path leaf (items (activities σ)) (uuids σ))
    as [[r acts'] n'] eqn:Hw.
  simpl in Hr. subst r.
  destruct (walk_success _ _ _ _ _ _ _ _ _ Hw) as (Hlt & dest & Hres & Hget).
  repeat split; try done. by exists dest.
Qed.

Lemma X3_witness :
  let σ' := final (new_activity uuid4 "/hobby/chess/openings" true empty_session) in
  outcome (new_activity uuid4 "/hobby/chess/openings" true empty_session) = inr tt ∧
  uuids σ' = 3%nat ∧
  ∃ dest, resolve ["hobby"; "chess"] (items (activities σ')) = Some dest ∧
          dict_get "openings" dest = Some ("uuid-0002", Cat []).
Proof.
  intros σ'.
  destruct (X3_create_with_parents_always_succeeds uuid4 empty_session
              "/hobby/chess/openings" ["hobby"; "chess"] "openings")
    as (Hout & _ & _ & _ & dest & Hres & Hget); try compute_done.
  split; [exact Hout|]. split; [compute_done|].
  exists dest. split; [exact Hres|exact Hget].
Defined.

(** X4 ([new_activity], [parents=False]): on a path [/p1/.../pn] with no
    empty name the call succeeds when [p1 ... p(n-1)] exist in that order, and
    when they do not it raises [ValueError] and leaves the whole state as it
    was. *)
Theorem X4_create_without_parents_needs_every_ancestor (uuid4 : nat → string)
    (σ : State) (activity : string) (path : list string) (leaf : string) :
  tail (split "/" activity) = path ++ [leaf] →
  EmptyString ∉ path ++ [leaf] →
  (is_Some (resolve path (items (activities σ))) →
     outcome (new_activity uuid4 activity false σ) = inr tt) ∧
  (resolve path (items (activities σ)) = None →
     ∃ msg, new_activity uuid4 activity false σ = (inl (ValueError msg), σ)).
Proof.
  intros Hsplit Hne.
  rewrite (new_activity_unfold uuid4 activity false σ path leaf) by done.
  split.
  - intros [dest Hres].
    destruct (walk_existing uuid4 false activity path leaf _ (uuids σ) dest Hres)
      as (cur' & -> & _). done.
  - intros Hres.
    destruct (walk_missing uuid4 activity path leaf _ (uuids σ) Hres) as [msg ->].
    exists msg. rewrite Cat_items. by destruct σ.
Qed.

Lemma X4_witness :
  outcome (new_activity uuid4 "/work/z" false empty_session) = inr tt ∧
  new_activity uuid4 "/play/z" false empty_session
    = (inl (ValueError "the activity 'play' within '/play/z' does not exist"),
       empty_session).
Proof.
  split.
  - apply (X4_create_without_parents_needs_every_ancestor uuid4 empty_session
             "/work/z" ["work"] "z"); compute_done.
  - destruct (X4_create_without_parents_needs_every_ancestor uuid4 empty_session
                "/play/z" ["play"] "z") as [_ H]; [compute_done|compute_done|].
    destruct (H ltac:(compute_done)) as [msg Hmsg]. rewrite Hmsg.
    assert (msg = "the activity 'play' within '/play/z' does not exist") as ->;
      [|reflexivity].
    vm_compute in Hmsg. by injection Hmsg.
Defined.

(** X5 ([new_activity] then [activity_id]): after a successful
    [new_activity] the last name of the path is known to [activity_id]: the
    lookup returns an identifier, not [None]. *)
Theorem X5_created_activity_is_found (uuid4 : nat → string) (σ : State)
    (activity : string) (parents : bool) (leaf : string) :
  outcome (new_activity uuid4 activity parents σ) = inr tt →
  last (tail (split "/" activity)) = Some leaf →
  ∃ id, activity_id leaf (final (new_activity uuid4 activity parents σ))
        = (inr (Some id), final (new_activity uuid4 activity parents σ)).
Proof.
  intros Hout Hlast.
  assert (∃ path, tail (split "/" activity) = path ++ [leaf]) as [path Hsplit].
  { by apply last_Some. }
  assert (EmptyString ∉ path ++ [leaf]) as Hne.
  { intros Hin. unfold new_activity in Hout. rewrite Hsplit in Hout.
    by rewrite decide_True in Hout. }
  revert Hout. rewrite (new_activity_unfold uuid4 activity parents σ path leaf) by done.
  destruct (walk uuid4 parents activity path leaf (items (activities σ)) (uuids σ))
    as [[r acts'] n'] eqn:Hw.
  destruct r as [e|]; [done|]. intros _.
  destruct (walk_success _ _ _ _ _ _ _ _ _ Hw) as (_ & dest & Hres & Hget).
  destruct (search_id_resolve leaf path acts' dest Hres) as [id Hid]; [by eauto|].
  exists id. unfold activity_id, bind, get_activities, ret, final.
  cbn [snd activities]. by rewrite Hid.
Qed.

Lemma X5_witness :
  ∃ id, activity_id "openings"
          (final (new_activity uuid4 "/hobby/chess/openings" true empty_session))
        = (inr (Some id),
           final (new_activity uuid4 "/hobby/chess/openings" true empty_session)).
Proof.
  apply (X5_created_activity_is_found uuid4 empty_session
           "/hobby/chess/openings" true "openings"); compute_done.
Defined.

(** X6 ([new_activity] then [activity_id]): creating [/p1/.../pn] where
    [pn] is not yet in its parent leaves the identifier that [activity_id]'s
    search finds for every name other than [p1 ... pn] as it was, whether the
    call succeeds or fails. *)
Theorem X6_insert_keeps_ids_of_other_names (uuid4 : nat → string) (σ : State)
    (activity : string) (parents : bool) (path : list string) (leaf name : string) :
  tail (split "/" activity) = path ++ [leaf] →
  EmptyString ∉ path ++ [leaf] →
  name ∉ path ++ [leaf] →
  (∀ dest, resolve path (items (activities σ)) = Some dest →
           dict_get leaf dest = None) →
  search_id name (activities (final (new_activity uuid4 activity parents σ)))
    = search_id name (activities σ).
Proof.
  intros Hsplit Hne Hname Hfree.
  rewrite (new_activity_unfold uuid4 activity parents σ path leaf) by done.
  destruct (walk uuid4 parents activity path leaf (items (activities σ)) (uuids σ))
    as [[r acts'] n'] eqn:Hw.
  destruct r as [e|].
  - destruct (walk_fail_unchanged _ _ _ _ _ _ _ _ _ _ Hw) as [-> ->].
    unfold final. cbn [snd activities]. by rewrite Cat_items.
  - unfold final. cbn [snd activities].
    rewrite (walk_keeps_other_ids _ _ _ _ _ _ _ _ _ _ Hname Hfree Hw).
    by rewrite Cat_items.
Qed.

Lemma X6_witness :
  search_id "x" (activities (final (new_activity uuid4 "/hobby/chess" true deep_session)))
    = Some "id-x" ∧
  search_id "z" (activities (final (new_activity uuid4 "/hobby/chess" true deep_session)))
    = Some "id-z".
Proof.
  split.
  - rewrite (X6_insert_keeps_ids_of_other_names uuid4 deep_session "/hobby/chess"
               true ["hobby"] "chess" "x"); try compute_done.
    intros dest Hd. compute in Hd. discriminate Hd.
  - rewrite (X6_insert_keeps_ids_of_other_names uuid4 deep_session "/hobby/chess"
               true ["hobby"] "chess" "z"); try compute_done.
    intros dest Hd. compute in Hd. discriminate Hd.
Defined.

(** X7 ([new_activity], [activity_path], [activity_id]): on an empty
    hierarchy, creating [/p1/.../pn] with its parents (names without [/],
    none empty, [pn] not among [p1 ... p(n-1)]) succeeds; afterwards
    [activity_path pn] is the same string [/p1/.../pn] and [activity_id pn]
    is the identifier drawn for [pn], the n-th one of the call. *)
Theorem X7_first_activity_round_trip (uuid4 : nat → string) (σ : State)
    (path : list string) (leaf : string) :
  activities σ = Cat [] →
  Forall no_slash (path ++ [leaf]) →
  EmptyString ∉ path ++ [leaf] →
  leaf ∉ path →
  let activity := path_str (path ++ [leaf]) in
  let σ' := final (new_activity uuid4 activity true σ) in
  outcome (new_activity uuid4 activity true σ) = inr tt ∧
  activity_path leaf σ' = (inr (Some activity), σ') ∧
  activity_id leaf σ' = (inr (Some (uuid4 (uuids σ + length path))), σ').
Proof.
  intros Hempty Hns Hne Hleaf activity σ'. unfold σ', activity.
  rewrite (new_activity_unfold uuid4 _ true σ path leaf);
    [|by rewrite split_path_str|done].
  rewrite Hempty. cbn [items].
  destruct (walk_chain uuid4 (path_str (path ++ [leaf])) path leaf (uuids σ)
              EmptyString Hleaf) as (cur' & -> & Hp & Hi).
  split; [done|].
  unfold activity_path, activity_id, bind, get_activities, ret, final.
  cbn [snd activities]. rewrite Hp, Hi. by rewrite string_app_nil_l.
Qed.

Lemma X7_witness :
  let σ' := final (new_activity uuid4 "/work/project-x" true blank_session) in
  outcome (new_activity uuid4 "/work/project-x" true blank_session) = inr tt ∧
  activity_path "project-x" σ' = (inr (Some "/work/project-x"), σ') ∧
  activity_id "project-x" σ' = (inr (Some "uuid-0001"), σ').
Proof.
  apply (X7_first_activity_round_trip uuid4 blank_session ["work"] "project-x").
  - reflexivity.
  - repeat constructor; compute_done.
  - compute_done.
  - compute_done.
Defined.

(** X8 ([start], [current_activity]): when no interval is open and no day
    of the log is later than the clock's day, [start] on a known activity
    returns [None] (nothing was completed), the new interval with the
    activity's identifier, its name and the clock's timestamp is the current
    activity, and every other day of the log is untouched. *)
Theorem X8_start_when_idle_opens_the_current_activity `{U : Utils}
    (clock : nat → Timestamp) (σ : State) (activity id : string) :
  search_id activity (activities σ) = Some id →
  outcome (current_activity σ) = inr None →
  (∀ d, d ∈ dom (timeline σ) → (d ≤ date_str (clock (ticks σ)))%string) →
  let now := clock (ticks σ) in
  let σ' := final (start clock activity σ) in
  outcome (start clock activity σ) = inr None ∧
  outcome (current_activity σ')
    = inr (Some (new_entry id activity (datetime_str now))) ∧
  ∀ d, d ≠ date_str now → timeline σ' !! d = timeline σ !! d.
Proof.
  intros Hid Hcur Hkeys now σ'. unfold σ'. rewrite start_spec, Hid, Hcur.
  split; [done|]. split.
  - by apply current_activity_opened.
  - intros d Hd. simpl. by rewrite append_entry_lookup, decide_False.
Qed.

Lemma X8_witness :
  let σ' := final (start forward_clock "y" idle_session) in
  outcome (start forward_clock "y" idle_session) = inr None ∧
  outcome (current_activity σ')
    = inr (Some (new_entry "id-y" "y" "2024-01-12T00:10")) ∧
  timeline σ' !! "2024-01-10" = Some [entry_x_closed].
Proof.
  intros σ'.
  destruct (X8_start_when_idle_opens_the_current_activity (U:=utils)
              forward_clock idle_session "y" "id-y") as (H1 & H2 & H3);
    [compute_done|compute_done| |].
  { intros d Hd. assert (d = "2024-01-10") as ->; [|compute_done].
    unfold idle_session in Hd. simpl in Hd. rewrite dom_singleton_L in Hd.
    by apply elem_of_singleton in Hd. }
  split; [exact H1|]. split; [exact H2|].
  rewrite H3; [reflexivity|compute_done].
Defined.

(** X9 ([done], [current_activity]): whenever [done] returns, no activity
    is current afterwards. *)
Theorem X9_done_leaves_no_current_activity `{U : Utils}
    (clock : nat → Timestamp) (σ : State) (r : Timestamp * Timestamp * string) :
  outcome (done clock σ) = inr r →
  outcome (current_activity (final (done clock σ))) = inr None.
Proof. apply done_then_idle. Qed.

Lemma X9_witness :
  outcome (done forward_clock active_session)
    = inr (jan10_2350, jan12_0010, "x") ∧
  outcome (current_activity (final (done forward_clock active_session)))
    = inr None.
Proof.
  assert (outcome (done forward_clock active_session)
    = inr (jan10_2350, jan12_0010, "x")) as H by compute_done.
  split; [exact H|].
  exact (X9_done_leaves_no_current_activity (U:=utils) forward_clock
           active_session _ H).
Defined.

(** X10 ([start] then [done]): starting a known activity on an idle log
    whose days are not later than the clock's day, and finishing it at the
    next clock reading (not on an earlier day), returns the parsed start, the
    second clock reading and the activity's name, and leaves no current
    activity. *)
Theorem X10_start_then_done_round_trip `{U : Utils}
    (clock : nat → Timestamp) (σ : State) (activity id : string)
    (t : Timestamp) :
  search_id activity (activities σ) = Some id →
  outcome (current_activity σ) = inr None →
  (∀ d, d ∈ dom (timeline σ) → (d ≤ date_str (clock (ticks σ)))%string) →
  parse (datetime_str (clock (ticks σ))) = Some t →
  str_gt (date_str t) (date_str (clock (S (ticks σ)))) = false →
  let σ1 := final (start clock activity σ) in
  outcome (done clock σ1) = inr (t, clock (S (ticks σ)), activity) ∧
  outcome (current_activity (final (done clock σ1))) = inr None.
Proof.
  intros Hid Hcur Hkeys Hparse Hgt σ1.
  assert (outcome (done clock σ1) = inr (t, clock (S (ticks σ)), activity)) as Hdone.
  { unfold σ1. rewrite start_spec, Hid, Hcur. unfold final. cbn [snd].
    pose proof (current_activity_opened clock id activity σ Hkeys) as Hopen.
    apply current_activity_Some in Hopen as (d & es & Hk & Hb & Hl & _).
    destruct (new_entry_lookups id activity (datetime_str (clock (ticks σ))))
      as (Hi & Hn & Hs).
    by rewrite (done_ok clock (opened clock id activity σ) d es _ _ t id activity
                  Hk Hb Hl Hs Hparse Hi Hn Hgt). }
  split; [exact Hdone|]. by eapply done_then_idle.
Qed.

Lemma X10_witness :
  let σ1 := final (start forward_clock "y" idle_session) in
  outcome (done forward_clock σ1) = inr (jan12_0010, jan12_0800, "y") ∧
  outcome (current_activity (final (done forward_clock σ1))) = inr None.
Proof.
  apply (X10_start_then_done_round_trip (U:=utils) forward_clock idle_session
           "y" "id-y" jan12_0010); try compute_done.
Defined.

(** X11 ([done], the fill loop): when the end is on the start's date, or
    its day of the month is not greater than the start's (the end of a month
    was crossed), [range(1, num_days + 1)] is empty: [done] only writes the
    end into the last interval; no day is added and no other day changes. *)
Theorem X11_done_without_day_increase_only_writes_the_end `{U : Utils}
    (clock : nat → Timestamp) (σ : State) (dlast : string) (es : list Entry)
    (e : Entry) (s : string) (st : Timestamp) (n : string) :
  last (sorted_keys (timeline σ)) = Some dlast →
  timeline σ !! dlast = Some es → last es = Some e →
  e !! "start" = Some s → parse s = Some st → e !! "name" = Some n →
  let en := clock (ticks σ) in
  str_gt (date_str st) (date_str en) = false →
  date_str st = date_str en ∨ (day en ≤ day st)%Z →
  let σ' := final (done clock σ) in
  outcome (done clock σ) = inr (st, en, n) ∧
  dom (timeline σ') = dom (timeline σ) ∧
  timeline σ' !! dlast
    = Some (<[pred (length es) := <["end" := datetime_str en]> e]> es) ∧
  ∀ d, d ≠ dlast → timeline σ' !! d = timeline σ !! d.
Proof.
  intros Hk Hb Hl Hs Hp Hn en Hgt Hday σ'. unfold σ'.
  rewrite (done_ok_nofill clock σ dlast es e s st n) by
    (try done; by apply filled_offsets_empty).
  split; [done|]. unfold final. cbn [snd with_timeline timeline]. split; [|split].
  - unfold close_last. apply set_eq. intros d. rewrite dom_insert. 
    assert (dlast ∈ dom (timeline σ)) by (apply elem_of_dom; eauto). set_solver.
  - by rewrite close_last_lookup, decide_True.
  - intros d Hd. by rewrite close_last_lookup, decide_False.
Qed.

Lemma X11_witness :
  let σ' := final (done month_end_clock month_end_session) in
  outcome (done month_end_clock month_end_session)
    = inr (jan31_2200, feb02_0900, "x") ∧
  dom (timeline σ') = {[ "2024-01-31" ]} ∧
  timeline σ' !! "2024-01-31"
    = Some [<["end" := "2024-02-02T09:00"]> entry_x_jan31].
Proof.
  intros σ'.
  destruct (X11_done_without_day_increase_only_writes_the_end (U:=utils)
              month_end_clock month_end_session "2024-01-31" [entry_x_jan31]
              entry_x_jan31 "2024-01-31T22:00" jan31_2200 "x")
    as (H1 & H2 & H3 & _); try compute_done.
  split; [exact H1|]. split; [|exact H3].
  unfold σ'. rewrite H2. compute_done.
Defined.

(** X12 ([done], failures): a failing [done] has either failed before its
    write, with [IndexError] (empty log or empty last day), [KeyError 'start']
    or the [ValueError] of [utils.parse], and the state is as it was; or it
    has failed after the write, with [TimelineError] or [KeyError] on ['id']
    or ['name'], and the last interval carries the end timestamp of the clock
    reading that was consumed. *)
Theorem X12_done_failures_before_and_after_the_write `{U : Utils}
    (clock : nat → Timestamp) (σ : State) (x : exn) :
  outcome (done clock σ) = inl x →
  (final (done clock σ) = σ ∧
   (x = IndexError ∨ x = KeyError "start" ∨ ∃ msg, x = ValueError msg)) ∨
  (∃ dlast es e,
     last (sorted_keys (timeline σ)) = Some dlast ∧
     timeline σ !! dlast = Some es ∧ last es = Some e ∧
     final (done clock σ) =
       with_timeline σ
         (close_last dlast es e (datetime_str (clock (ticks σ))) (timeline σ))
         (S (ticks σ)) ∧
     ((∃ msg, x = TimelineError msg) ∨ x = KeyError "id" ∨ x = KeyError "name")).
Proof.
  unfold done. unfold_monad.
  destruct (last (sorted_keys (timeline σ))) as [dlast|] eqn:Hk; simpl.
  2:{ intros [= <-]. left. eauto. }
  destruct (timeline σ !! dlast) as [es|] eqn:Hb; simpl.
  2:{ apply last_sorted_keys_Some in Hk as [Hk _].
      apply elem_of_dom in Hk as [? Hk]. congruence. }
  destruct (last es) as [e|] eqn:Hl; simpl.
  2:{ intros [= <-]. left. eauto. }
  destruct (e !! "start") as [s|] eqn:Hs; simpl.
  2:{ intros [= <-]. left. eauto. }
  destruct (parse s) as [st|] eqn:Hp; simpl.
  2:{ intros [= <-]. left. eauto. }
  set (en := clock (ticks σ)).
  set (e' := <["end" := datetime_str en]> e).
  assert (e' !! "start" = Some s) as Hs' by (unfold e'; by rewrite lookup_insert_ne).
  assert (e' !! "name" = e !! "name") as Hn' by (unfold e'; by rewrite lookup_insert_ne).
  assert (e' !! "id" = e !! "id") as Hi' by (unfold e'; by rewrite lookup_insert_ne).
  destruct (str_gt (date_str st) (date_str en)) eqn:Hgt; simpl.
  { intros [= <-]. right. exists dlast, es, e. repeat split; eauto. }
  destruct (decide (date_str st ≠ date_str en)) as [Hne|Heq]; simpl.
  - destruct (e !! "id") as [i|] eqn:Hi; [destruct (e !! "name") as [n|] eqn:Hn|].
    + rewrite (for_each_fill _ st _ i n s) by done. simpl. rewrite Hn'. simpl.
      intros Habs. discriminate Habs.
    + destruct (range 1 (day en - day st + 1)) as [|o os] eqn:Hr.
      * simpl. rewrite Hn'. simpl. intros [= <-]. right.
        exists dlast, es, e. repeat split; eauto.
      * edestruct (for_each_fill_raise_key e' st en s (o :: os)) as (k & Hkk & ->);
          [done|right; by rewrite Hn'|done|].
        intros [= <-]. right. exists dlast, es, e. repeat split; try done.
        right. destruct Hkk as [-> | ->]; [by left|by right].
    + destruct (range 1 (day en - day st + 1)) as [|o os] eqn:Hr.
      * simpl. rewrite Hn'. destruct (e !! "name") as [n|]; simpl;
          [intros Habs; discriminate Habs|].
        intros [= <-]. right. exists dlast, es, e. repeat split; eauto.
      * edestruct (for_each_fill_raise_key e' st en s (o :: os)) as (k & Hkk & ->);
          [done|left; by rewrite Hi'|done|].
        intros [= <-]. right. exists dlast, es, e. repeat split; try done.
        right. destruct Hkk as [-> | ->]; [by left|by right].
  - rewrite Hn'. destruct (e !! "name") as [n|]; simpl;
      [intros Habs; discriminate Habs|].
    intros [= <-]. right. exists dlast, es, e. repeat split; eauto.
Qed.

Lemma X12_witness :
  done forward_clock blank_session = (inl IndexError, blank_session) ∧
  outcome (done backward_clock active_y_session)
    = inl (TimelineError
        "Finishing activity before it was started. Maybe system clock is wrong?") ∧
  final (done backward_clock active_y_session)
    = with_timeline active_y_session
        (close_last "2024-01-12" [entry_y_open] entry_y_open "2024-01-10T09:00"
           (timeline active_y_session)) 3.
Proof.
  assert (outcome (done backward_clock active_y_session)
    = inl (TimelineError
        "Finishing activity before it was started. Maybe system clock is wrong?"))
    as Hout by compute_done.
  split; [compute_done|]. split; [exact Hout|].
  destruct (X12_done_failures_before_and_after_the_write (U:=utils)
              backward_clock active_y_session _ Hout)
    as [[_ [H|[H|[msg H]]]]|(dlast & es & e & Hk & Hb & Hl & Hfin & _)];
    try discriminate H.
  assert (dlast = "2024-01-12") as ->.
  { assert (last (sorted_keys (timeline active_y_session)) = Some "2024-01-12")
      as Hc by compute_done. congruence. }
  assert (es = [entry_y_open]) as ->.
  { assert (timeline active_y_session !! "2024-01-12" = Some [entry_y_open])
      as Hc by compute_done. congruence. }
  assert (e = entry_y_open) as -> by (simpl in Hl; congruence).
  exact Hfin.
Defined.

(** X13 ([current_activity]): the only failure is [IndexError], and it is
    raised exactly when the last day of the log holds an empty list. *)
Theorem X13_current_activity_fails_only_on_an_empty_last_bucket (σ : State)
    (x : exn) :
  outcome (current_activity σ) = inl x ↔
  x = IndexError ∧
  ∃ d, last (sorted_keys (timeline σ)) = Some d ∧ timeline σ !! d = Some [].
Proof.
  unfold current_activity. unfold_monad.
  destruct (decide (timeline σ = ∅)) as [He|He]; simpl.
  { split; [done|]. intros (_ & d & Hd & _).
    apply last_sorted_keys_Some in Hd as [Hd _]. rewrite He in Hd. set_solver. }
  destruct (last (sorted_keys (timeline σ))) as [k|] eqn:Hk; simpl.
  2:{ by apply last_sorted_keys_None in Hk. }
  destruct (timeline σ !! k) as [es|] eqn:Hes; simpl.
  2:{ apply last_sorted_keys_Some in Hk as [Hk _].
      apply elem_of_dom in Hk as [? Hk]. congruence. }
  destruct (last es) as [e|] eqn:Hl; simpl.
  - split.
    + destruct (decide ("end" ∈ dom e)); intros Habs; discriminate Habs.
    + intros (_ & d & [= <-] & Hd). rewrite Hes in Hd. by simplify_eq.
  - apply last_None in Hl as ->. split.
    + intros [= <-]. eauto.
    + by intros [-> _].
Qed.

Lemma X13_witness :
  outcome (current_activity hollow_session) = inl IndexError.
Proof.
  apply X13_current_activity_fails_only_on_an_empty_last_bucket.
  split; [reflexivity|]. exists "2024-01-10". split; compute_done.
Defined.

(** X14 ([recent_activities], [num >= 1]): the call never fails and never
    changes the state; it returns [num] intervals, or all real intervals of
    the log when there are fewer, and none of them is a fragment (an entry
    with a ['previous'] field). *)
Theorem X14_recent_returns_the_requested_number (num : Z) (σ : State) :
  (1 ≤ num)%Z →
  ∃ result, recent_activities num σ = (inr result, σ) ∧
    Z.of_nat (interval_count result)
      = Z.min num (Z.of_nat (total_real (timeline σ)
                               (reverse (sorted_keys (timeline σ))))) ∧
    ∀ d l e, (d, l) ∈ result → e ∈ l → ¬ is_fragment e.
Proof. apply recent_activities_positive. Qed.

Lemma X14_witness :
  ∃ result, recent_activities 2 history_session = (inr result, history_session) ∧
    interval_count result = 2%nat.
Proof.
  destruct (X14_recent_returns_the_requested_number 2 history_session)
    as (result & Hres & Hcount & _); [lia|].
  exists result. split; [exact Hres|].
  assert (total_real (timeline history_session)
            (reverse (sorted_keys (timeline history_session))) = 3%nat) as Ht
    by compute_done.
  rewrite Ht in Hcount. lia.
Defined.

(** X15 ([recent_activities]): a day of the log that holds only fragments
    is not a key of the result, for every [num]. *)
Theorem X15_recent_skips_days_of_fragments (num : Z) (σ : State) (d : string)
    (bucket : list Entry) (result : list (string * list Entry)) :
  timeline σ !! d = Some bucket → Forall is_fragment bucket →
  outcome (recent_activities num σ) = inr result →
  d ∉ result.*1.
Proof.
  intros Hd Hfrag. rewrite recent_activities_spec. intros [= <-] Hin.
  apply list_elem_of_fmap in Hin as ([d' l] & -> & Hin).
  apply recent_spec_entries in Hin as [Hne Hpre]. cbn [fst] in Hd.
  rewrite Hd in Hpre. cbn [from_option id] in Hpre.
  assert (real_entries bucket = []) as Hreal.
  { unfold real_entries. clear -Hfrag.
    induction Hfrag as [|e es He Hes IH]; [done|].
    rewrite filter_cons, decide_False by (by intros H; apply H). done. }
  rewrite Hreal in Hpre. by apply prefix_nil_inv in Hpre.
Qed.

Lemma X15_witness :
  let σ' := final (done forward_clock active_session) in
  outcome (recent_activities 5 σ')
    = inr [("2024-01-10", [<["end" := "2024-01-12T00:10"]> entry_x_open])] ∧
  "2024-01-12"
    ∉ [("2024-01-10", [<["end" := "2024-01-12T00:10"]> entry_x_open])].*1.
Proof.
  intros σ'.
  assert (outcome (recent_activities 5 σ')
    = inr [("2024-01-10", [<["end" := "2024-01-12T00:10"]> entry_x_open])]) as H
    by compute_done.
  split; [exact H|].
  apply (X15_recent_skips_days_of_fragments 5 σ' "2024-01-12"
           [fragment "id-x" "x" "2024-01-10T23:50" "2024-01-12T00:10"] _); [| |exact H].
  - compute_done.
  - repeat constructor.
Defined.

(** X16 ([main], [tyme --create-activity NAME]): with a non-empty name the
    command is [new_activity(NAME, parents=True)], result and state; its only
    failures are [ValueError]s, which the handler for [TimelineError] does
    not catch. *)
Theorem X16_main_create_is_new_activity_with_parents `{U : Utils}
    (clock : nat → Timestamp) (uuid4 : nat → string) (activity : string)
    (σ : State) :
  activity ≠ EmptyString →
  main clock uuid4 (args_create activity) σ = new_activity uuid4 activity true σ ∧
  ∀ x, outcome (main clock uuid4 (args_create activity) σ) = inl x →
       ∃ msg, x = ValueError msg.
Proof.
  intros Hne.
  assert (main clock uuid4 (args_create activity) σ
          = new_activity uuid4 activity true σ) as Heq.
  { unfold main, args_create, except_TimelineError, bind, save, ret.
    cbv zeta. cbn [truthy arg_start arg_done arg_new_activity from_option id].
    assert (String.eqb activity EmptyString = false) as ->
      by exact (proj2 (String.eqb_neq _ _) Hne).
    cbn [negb].
    pose proof (new_activity_raises_ValueError uuid4 activity true σ) as Hv.
    unfold outcome in Hv.
    destruct (new_activity uuid4 activity true σ) as [[x|[]] σ']; [|done].
    destruct (Hv x eq_refl) as [msg ->]. done. }
  split; [exact Heq|]. rewrite Heq. apply new_activity_raises_ValueError.
Qed.

Lemma X16_witness :
  main forward_clock uuid4 (args_create "/work//x") empty_session
    = (inl (ValueError "malformed absolute activity path"), empty_session) ∧
  outcome (main forward_clock uuid4 (args_create "/hobby/chess") empty_session)
    = inr tt.
Proof.
  destruct (X16_main_create_is_new_activity_with_parents (U:=utils)
              forward_clock uuid4 "/work//x" empty_session) as [H1 _]; [done|].
  destruct (X16_main_create_is_new_activity_with_parents (U:=utils)
              forward_clock uuid4 "/hobby/chess" empty_session) as [H2 _]; [done|].
  rewrite H1, H2. split; compute_done.
Defined.

(** X17 ([new_activity]): a name without [/] is never created: the slice
    [activity.split('/')[1:]] is empty, unpacking it raises [ValueError], and
    the state is as it was, with or without [parents]. *)
Theorem X17_name_without_slash_cannot_be_created (uuid4 : nat → string)
    (activity : string) (parents : bool) (σ : State) :
  no_slash activity →
  new_activity uuid4 activity parents σ
    = (inl (ValueError "not enough values to unpack"), σ).
Proof.
  intros Hns. unfold new_activity.
  assert (split "/" activity = [activity]) as ->.
  { rewrite <- (string_app_nil_r activity) at 1.
    rewrite split_noslash_app by done. simpl. by rewrite string_app_nil_r. }
  cbn [tail]. case_decide as Hin; [by apply elem_of_nil in Hin|]. reflexivity.
Qed.

Lemma X17_witness :
  no_slash "chess" ∧
  new_activity uuid4 "chess" true empty_session
    = (inl (ValueError "not enough values to unpack"), empty_session).
Proof.
  assert (no_slash "chess") as H by (repeat constructor; compute_done).
  split; [exact H|]. by apply X17_name_without_slash_cannot_be_created.
Defined.

(** X18 ([start], [new_activity], failures): when [start] fails because the
    activity is not in the hierarchy, and whenever [new_activity] raises
    (malformed path, missing ancestor without [parents], no segment at all),
    the log, the hierarchy and the counters are exactly as they were before
    the call. *)
Theorem X18_failed_start_or_insert_leaves_state `{U : Utils}
    (clock : nat → Timestamp) (uuid4 : nat → string) (σ : State) :
  (∀ activity, search_id activity (activities σ) = None →
     ∃ msg, start clock activity σ = (inl (TimelineError msg), σ)) ∧
  (∀ activity parents x,
     outcome (new_activity uuid4 activity parents σ) = inl x →
     final (new_activity uuid4 activity parents σ) = σ).
Proof.
  split.
  - intros activity Hnone. rewrite start_spec, Hnone. eauto.
  - intros activity parents x. apply new_activity_fail_unchanged.
Qed.

Lemma X18_witness :
  search_id "reading" (activities active_session) = None ∧
  final (start forward_clock "reading" active_session) = active_session ∧
  outcome (new_activity uuid4 "/work//x" true active_session)
    = inl (ValueError "malformed absolute activity path") ∧
  final (new_activity uuid4 "/work//x" true active_session) = active_session ∧
  outcome (new_activity uuid4 "/work/missing/leaf" false active_session)
    = inl (ValueError
             "the activity 'missing' within '/work/missing/leaf' does not exist") ∧
  final (new_activity uuid4 "/work/missing/leaf" false active_session)
    = active_session.
Proof.
  destruct (X18_failed_start_or_insert_leaves_state (U:=utils) forward_clock
              uuid4 active_session) as [Hstart Hnew].
  assert (search_id "reading" (activities active_session) = None) as Hnone
    by compute_done.
  split; [exact Hnone|]. split.
  { destruct (Hstart "reading" Hnone) as [msg ->]. reflexivity. }
  assert (outcome (new_activity uuid4 "/work//x" true active_session)
    = inl (ValueError "malformed absolute activity path")) as H1 by compute_done.
  assert (outcome (new_activity uuid4 "/work/missing/leaf" false active_session)
    = inl (ValueError
             "the activity 'missing' within '/work/missing/leaf' does not exist"))
    as H2 by compute_done.
  split; [exact H1|]. split; [exact (Hnew _ _ _ H1)|].
  split; [exact H2|exact (Hnew _ _ _ H2)].
Defined.

End further.
